(** * AdvModernCPP: container and algorithm samples of Module 1

    A shallow embedding of the sample programs
      - [dataprocesingAlgo_sol.cpp]      (the sensor processor solution),
      - [stlAlgoPipeline_practice.cpp]   (the copy_if / transform pipeline),
      - [stlAlgoPipeline_practice_range.cpp] (the same pipeline over views),
      - [stlAlgoPractice_3.cpp]          (the chunked transform),
    together with the parts of the C++ standard library they call:
    [double] arithmetic, stream insertion, [std::priority_queue] over
    [std::push_heap] / [std::pop_heap], [std::copy_if], [std::count_if],
    [std::transform] and [std::views::filter]. *)

From Stdlib Require Import ZArith List Lia String Ascii.
From Stdlib Require Import Floats.SpecFloat.
From Stdlib Require Import Sorting.Sorted.
From Equations Require Import Equations.
From stdpp Require Import gmap strings list fin_maps pretty.

(** ** IEEE 754 binary64, the C++ [double] *)

Module IEEE754.

Local Open Scope Z_scope.

Definition prec : Z := 53.
Definition emax : Z := 1024.

Definition double : Type := spec_float.

(** Conversion of an integer constant ([0], [1000]) to [double]. *)
Definition of_int (n : Z) : double := binary_normalize prec emax n 0 false.

(** A decimal literal [num/den] ([0.08] is [literal 8 100]): the double
    nearest to the quotient, ties to even. *)
Definition literal (num den : Z) : double :=
  SFdiv prec emax (of_int num) (of_int den).

Definition mul : double -> double -> double := SFmul prec emax.
Definition add : double -> double -> double := SFadd prec emax.
Definition sub : double -> double -> double := SFsub prec emax.

(** [x > y]; false as soon as one side is a NaN. *)
Definition gt (x y : double) : bool := SFltb y x.

(** *** Stream insertion of a double

    [os << x] with the stream's default flags formats like
    [printf("%g")] with precision 6: six significant digits, fixed
    notation when the decimal exponent X satisfies -4 <= X < 6 and
    scientific notation otherwise, trailing zeros removed. *)

Definition precision : Z := 6.

(** The exact value [m * 2^e] of a finite double, as a fraction. *)
Definition frac_of (m : positive) (e : Z) : Z * Z :=
  match e with
  | Z0 => (Zpos m, 1)
  | Zpos p => (Zpos m * 2 ^ Zpos p, 1)
  | Zneg p => (Zpos m, 2 ^ Zpos p)
  end.

(** The decimal exponent X of [n/d > 0]: [10^X <= n/d < 10^(X+1)].
    A double lies between 10^-324 and 10^309. *)
Definition exp10 (n d : Z) : Z :=
  if d <=? n
  then Z.of_nat (length (filter (fun k => d * 10 ^ Z.of_nat k <=? n) (seq 1 400)))
  else - Z.of_nat (length (filter (fun k => n * 10 ^ Z.of_nat k <? d) (seq 0 400))).

Definition round_half_even (n d : Z) : Z :=
  let q := n / d in
  match 2 * (n mod d) ?= d with
  | Lt => q
  | Gt => q + 1
  | Eq => if Z.even q then q else q + 1
  end.

(** [n/d] rounded to [precision] significant digits: the digits as an
    integer of exactly [precision] digits, and the decimal exponent. *)
Definition significand (n d : Z) : Z * Z :=
  let X := exp10 n d in
  let s := precision - 1 - X in
  let D := if 0 <=? s then round_half_even (n * 10 ^ s) d
           else round_half_even n (d * 10 ^ (- s)) in
  if D =? 10 ^ precision then (10 ^ (precision - 1), X + 1) else (D, X).

Fixpoint drop_zeros (rev_digits : list ascii) : list ascii :=
  match rev_digits with
  | "0"%char :: r => drop_zeros r
  | _ => rev_digits
  end.

Definition strip_trailing_zeros (s : string) : string :=
  string_of_list_ascii (rev (drop_zeros (rev (list_ascii_of_string s)))).

Definition with_fraction (int_part frac : string) : string :=
  match strip_trailing_zeros frac with
  | EmptyString => int_part
  | f => int_part +:+ "." +:+ f
  end.

Definition zeros (k : Z) : string :=
  string_of_list_ascii (repeat "0"%char (Z.to_nat k)).

Definition split_at (k : Z) (s : string) : string * string :=
  let l := list_ascii_of_string s in
  (string_of_list_ascii (firstn (Z.to_nat k) l),
   string_of_list_ascii (skipn (Z.to_nat k) l)).

Definition fixed_notation (D X : Z) : string :=
  if 0 <=? X
  then let '(i, f) := split_at (X + 1) (pretty D) in with_fraction i f
  else with_fraction "0" (zeros (- X - 1) +:+ pretty D).

Definition exponent_suffix (X : Z) : string :=
  let a := Z.abs X in
  "e" +:+ (if X <? 0 then "-" else "+") +:+
  (if a <? 10 then "0" else "") +:+ pretty a.

Definition scientific_notation (D X : Z) : string :=
  let '(i, f) := split_at 1 (pretty D) in
  with_fraction i f +:+ exponent_suffix X.

Definition print_double (x : double) : string :=
  match x with
  | S754_zero s => if s then "-0" else "0"
  | S754_infinity s => if s then "-inf" else "inf"
  | S754_nan => "nan"
  | S754_finite s m e =>
      let '(n, d) := frac_of m e in
      let '(D, X) := significand n d in
      (if s then "-" else "") +:+
      (if (X <? -4) || (precision <=? X)
       then scientific_notation D X
       else fixed_notation D X)
  end.

End IEEE754.

(** ** Heap operations of [<algorithm>] and [std::priority_queue]

    [std::priority_queue<T, std::vector<T>, Compare>] keeps its elements in
    a vector [c] arranged as a binary heap: [push] is [c.push_back(x)]
    followed by [std::push_heap], [pop] is [std::pop_heap] followed by
    [c.pop_back()], and [top] is [c.front()].  The two heap algorithms are
    the ones of the GNU library ([bits/stl_heap.h]): both move a hole
    through the vector and store the pending value once at the end.
    Indices are the library's [_Distance]; every call made below has
    [len >= 1], so none of the subtractions goes below zero except
    [len - 2] at [len = 1], which the parity test guards. *)

Module StdHeap.
Section Heap.
Context {T : Type} (comp : T -> T -> bool).

(** [std::__push_heap(first, holeIndex, topIndex, value, comp)] *)
Equations? push_heap_aux (first : list T) (holeIndex topIndex : nat) (value : T)
  : list T by wf holeIndex lt :=
  push_heap_aux first holeIndex topIndex value
    with decide (topIndex < holeIndex) => {
    | right _ := <[holeIndex := value]> first;
    | left _ with first !! ((holeIndex - 1) / 2) => {
      | None := <[holeIndex := value]> first;
      | Some p with comp p value => {
        | false := <[holeIndex := value]> first;
        | true := push_heap_aux (<[holeIndex := p]> first)
                                ((holeIndex - 1) / 2) topIndex value } } }.
Proof. apply Nat.Div0.div_lt_upper_bound; lia. Qed.

(** [std::push_heap(first, last, comp)] on the whole vector. *)
Definition push_heap (c : list T) : list T :=
  match last c with
  | Some value => push_heap_aux c (length c - 1) 0 value
  | None => c
  end.

(** The [while (secondChild < (len - 1) / 2)] loop of
    [std::__adjust_heap]; returns the vector, [holeIndex] and
    [secondChild]. *)
Equations? adjust_heap_loop (first : list T) (holeIndex secondChild len : nat)
  : list T * nat * nat by wf (len - secondChild) lt :=
  adjust_heap_loop first holeIndex secondChild len
    with decide (secondChild < (len - 1) / 2) => {
    | right _ := (first, holeIndex, secondChild);
    | left _ with first !! (2 * (secondChild + 1)),
                  first !! (2 * (secondChild + 1) - 1) => {
      | Some r, Some l with comp r l => {
        | true := adjust_heap_loop (<[holeIndex := l]> first)
                    (2 * (secondChild + 1) - 1) (2 * (secondChild + 1) - 1) len;
        | false := adjust_heap_loop (<[holeIndex := r]> first)
                    (2 * (secondChild + 1)) (2 * (secondChild + 1)) len };
      | _, _ := (first, holeIndex, secondChild) } }.
Proof.
  all: assert (2 * ((len - 1) / 2) <= len - 1) by (apply Nat.Div0.mul_div_le); lia.
Qed.

(** [std::__adjust_heap(first, holeIndex, len, value, comp)] *)
Definition adjust_heap (first : list T) (holeIndex len : nat) (value : T) : list T :=
  let topIndex := holeIndex in
  let '(first, holeIndex, secondChild) :=
    adjust_heap_loop first holeIndex holeIndex len in
  let '(first, holeIndex) :=
    if Nat.even len && (secondChild =? (len - 2) / 2)
    then match first !! (2 * (secondChild + 1) - 1) with
         | Some l => (<[holeIndex := l]> first, 2 * (secondChild + 1) - 1)
         | None => (first, holeIndex)
         end
    else (first, holeIndex) in
  push_heap_aux first holeIndex topIndex value.

(** [std::pop_heap(first, last, comp)] on the whole vector: for more
    than one element, [--last] and
    [std::__pop_heap(first, last, last, comp)]. *)
Definition pop_heap (c : list T) : list T :=
  if 1 <? length c
  then match c !! (length c - 1), c !! 0 with
       | Some value, Some top =>
           adjust_heap (<[length c - 1 := top]> c) 0 (length c - 1) value
       | _, _ => c
       end
  else c.

(** [std::priority_queue] members over the underlying vector [c]. *)
Definition pq_empty (c : list T) : bool :=
  match c with [] => true | _ => false end.
Definition pq_top (c : list T) : option T := head c.
Definition pq_push (x : T) (c : list T) : list T := push_heap (c ++ [x]).
Definition pq_pop (c : list T) : list T := removelast (pop_heap c).

End Heap.

(** *** What the heap algorithms maintain

    [is_heap v n]: in the first [n] slots of [v] no element is below its
    child, [comp parent child] being false.  While an algorithm runs, one
    slot [h] is a hole whose content is stale: [holed v n h] is the heap
    property for every pair not involving the hole, together with the
    same property between the hole's parent and the hole's children.
    [dominates x v n h]: the pending value [x] is not below the children
    of the hole. *)
Section HeapSpec.
Context {T : Type} (comp : T -> T -> bool).

Definition is_heap (v : list T) (n : nat) : Prop :=
  ∀ i p c, 0 < i < n → v !! ((i - 1) / 2) = Some p → v !! i = Some c →
           comp p c = false.

Definition holed (v : list T) (n h : nat) : Prop :=
  (∀ i p c, 0 < i < n → i ≠ h → (i - 1) / 2 ≠ h →
            v !! ((i - 1) / 2) = Some p → v !! i = Some c → comp p c = false) ∧
  (∀ i g c, 0 < i < n → (i - 1) / 2 = h → 0 < h →
            v !! ((h - 1) / 2) = Some g → v !! i = Some c → comp g c = false).

Definition dominates (x : T) (v : list T) (n h : nat) : Prop :=
  ∀ i c, 0 < i < n → (i - 1) / 2 = h → v !! i = Some c → comp x c = false.
End HeapSpec.

End StdHeap.

(** ** The sensor processor ([dataprocesingAlgo_sol.cpp])

    The file holds two programs one after the other: the starter with
    its TODO stubs (lines 1-157), then, after the line of prose
    [Lab Solution Files :] (line 159), the solution (lines 160-409).
    Both define [SensorReading], [Alert], [SensorProcessor] and [main],
    and line 192 of the solution is the prose
    [Missing default constructor : SensorReading() {}], so the file as
    it stands is not one C++ program and no compiler accepts it.

    What is embedded here is the solution alone: lines 173-409, with
    line 192 read as the declaration it names, [SensorReading() {}],
    the default constructor that the starter has at line 27.  Every
    statement below about [main] is about that program. *)

Module Sensors.
Import IEEE754 StdHeap.

Record SensorReading := mkSensorReading {
  sensorId : Z;
  location : string;
  sensorType : string;
  value : double
}.

Record Alert := mkAlert {
  priority : Z;
  message : string;
  alertType : string
}.

(** [true] when [a] has lower priority than [b]. *)
Definition AlertComparator (a b : Alert) : bool :=
  (priority a <? priority b)%Z.

(** The three containers of the class.  [alertQueue] is the vector under
    the [priority_queue]. *)
Record SensorProcessor := mkSensorProcessor {
  sensorData : gmap Z SensorReading;
  locationIndex : gmap string (list Z);
  alertQueue : list Alert
}.

Definition new_SensorProcessor : SensorProcessor :=
  {| sensorData := ∅; locationIndex := ∅; alertQueue := [] |}.

(** A [SensorReading*] handed out by the class is null or the address of
    the mapped value in the [sensorData] node of some key; nodes of an
    [unordered_map] do not move, so the key names the address. *)
Inductive SensorReadingPtr :=
| nullptr
| node_of (key : Z).

(** The program state: the processor object and the text sent to
    [cout] so far.  A computation that has no defined behaviour (reading
    through a null pointer, [top] of an empty queue) yields [None]. *)
Record World := mkWorld {
  this : SensorProcessor;
  cout : string
}.

Definition M (A : Type) : Type := World -> option (A * World).

Global Instance M_ret : MRet M := fun A a w => Some (a, w).
Global Instance M_bind : MBind M := fun A B k c w =>
  match c w with
  | Some (a, w') => k a w'
  | None => None
  end.
Definition undefined {A} : M A := fun _ => None.

Definition get_this : M SensorProcessor := fun w => Some (this w, w).
Definition set_this (p : SensorProcessor) : M unit :=
  fun w => Some (tt, {| this := p; cout := cout w |}).
Definition print (s : string) : M unit :=
  fun w => Some (tt, {| this := this w; cout := cout w +:+ s |}).

(** [std::endl]: a newline (and a flush). *)
Definition endl : string := String (ascii_of_nat 10) EmptyString.

(** [p->field] *)
Definition deref (p : SensorReadingPtr) : M SensorReading :=
  match p with
  | nullptr => undefined
  | node_of key =>
      s ← get_this;
      match sensorData s !! key with
      | Some r => mret r
      | None => undefined
      end
  end.

Fixpoint for_each {A} (l : list A) (body : A -> M unit) : M unit :=
  match l with
  | [] => mret tt
  | x :: rest => body x ;; for_each rest body
  end.

Definition addSensorReading (reading : SensorReading) : M unit :=
  s ← get_this;
  let sensorData1 := <[sensorId reading := reading]> (sensorData s) in
  let at_location := default [] (locationIndex s !! location reading) in
  let locationIndex1 :=
    <[location reading := at_location ++ [sensorId reading]]> (locationIndex s) in
  set_this {| sensorData := sensorData1;
              locationIndex := locationIndex1;
              alertQueue := alertQueue s |} ;;
  print ("Added sensor " +:+ pretty (sensorId reading) +:+ " (" +:+
         sensorType reading +:+ ") to " +:+ location reading +:+ endl).

Definition addAlert (alert : Alert) : M unit :=
  s ← get_this;
  set_this {| sensorData := sensorData s;
              locationIndex := locationIndex s;
              alertQueue := pq_push AlertComparator alert (alertQueue s) |} ;;
  print ("Added alert: Priority " +:+ pretty (priority alert) +:+ " - " +:+
         message alert +:+ endl).

Definition processNextAlert : M unit :=
  s ← get_this;
  if pq_empty (alertQueue s)
  then print ("No alerts to process - queue is empty" +:+ endl)
  else
    match pq_top (alertQueue s) with
    | None => undefined
    | Some currentAlert =>
        print ("Processing Priority " +:+ pretty (priority currentAlert) +:+
               ": " +:+ message currentAlert +:+ " (" +:+
               alertType currentAlert +:+ ")" +:+ endl) ;;
        set_this {| sensorData := sensorData s;
                    locationIndex := locationIndex s;
                    alertQueue := pq_pop AlertComparator (alertQueue s) |}
    end.

Definition findSensorById (id : Z) : M SensorReadingPtr :=
  s ← get_this;
  match sensorData s !! id with
  | Some _ => mret (node_of id)
  | None => mret nullptr
  end.

(** The body of the range-for over the ids of one location. *)
Definition collect (s : SensorProcessor)
    (result : list SensorReadingPtr) (id : Z) : list SensorReadingPtr :=
  match sensorData s !! id with
  | Some _ => result ++ [node_of id]
  | None => result
  end.

Definition getSensorsByLocation (loc : string) : M (list SensorReadingPtr) :=
  s ← get_this;
  match locationIndex s !! loc with
  | Some ids => mret (fold_left (collect s) ids [])
  | None => mret []
  end.

Definition runTests : M unit :=
  print ("=== Sensor Processing System Tests ===" +:+ endl) ;;
  print (endl +:+ "Adding sensor readings..." +:+ endl) ;;
  addSensorReading (mkSensorReading 101 "Building_A" "temperature" (literal 725 10)) ;;
  addSensorReading (mkSensorReading 102 "Building_A" "humidity" (literal 452 10)) ;;
  addSensorReading (mkSensorReading 201 "Building_B" "temperature" (literal 681 10)) ;;
  addSensorReading (mkSensorReading 202 "Building_B" "humidity" (literal 527 10)) ;;
  addSensorReading (mkSensorReading 301 "Building_C" "temperature" (literal 743 10)) ;;
  print ("✓ Sensor data added" +:+ endl) ;;
  print (endl +:+ "Testing ID-based lookup..." +:+ endl) ;;
  sensor ← findSensorById 102;
  match sensor with
  | nullptr => print ("✗ Sensor 102 not found" +:+ endl)
  | _ =>
      r ← deref sensor;
      print ("✓ Found sensor " +:+ pretty (sensorId r) +:+ " in " +:+
             location r +:+ " (value: " +:+ print_double (value r) +:+ ")" +:+ endl)
  end ;;
  missingSensor ← findSensorById 999;
  match missingSensor with
  | nullptr => print ("✓ Correctly returned nullptr for missing sensor 999" +:+ endl)
  | _ => print ("✗ Should return nullptr for missing sensor" +:+ endl)
  end ;;
  print (endl +:+ "Testing location-based queries..." +:+ endl) ;;
  buildingASensors ← getSensorsByLocation "Building_A";
  print ("✓ Found " +:+ pretty (length buildingASensors) +:+
         " sensors in Building_A:" +:+ endl) ;;
  for_each buildingASensors (fun sensor =>
    r ← deref sensor;
    print ("  - Sensor " +:+ pretty (sensorId r) +:+ " (" +:+
           sensorType r +:+ ")" +:+ endl)) ;;
  buildingBSensors ← getSensorsByLocation "Building_B";
  print ("✓ Found " +:+ pretty (length buildingBSensors) +:+
         " sensors in Building_B" +:+ endl) ;;
  emptySensors ← getSensorsByLocation "Building_Z";
  print ("✓ Found " +:+ pretty (length emptySensors) +:+
         " sensors in Building_Z (should be 0)" +:+ endl) ;;
  print (endl +:+ "Testing priority alert processing..." +:+ endl) ;;
  addAlert (mkAlert 3 "Temperature threshold exceeded" "WARNING") ;;
  addAlert (mkAlert 9 "Critical system failure" "CRITICAL") ;;
  addAlert (mkAlert 1 "Low battery detected" "INFO") ;;
  addAlert (mkAlert 7 "Network connectivity issue" "ERROR") ;;
  print (endl +:+ "Processing alerts by priority (highest first):" +:+ endl) ;;
  processNextAlert ;;
  processNextAlert ;;
  processNextAlert ;;
  processNextAlert ;;
  print (endl +:+ "Trying to process alert from empty queue:" +:+ endl) ;;
  processNextAlert ;;
  print (endl +:+ "=== Testing Complete ===" +:+ endl).

(** [main] of the solution (lines 401-409). *)
Definition main : M Z :=
  print ("=== Sensor Data Processing System ===" +:+ endl) ;;
  print ("Demonstrating STL container selection for efficient data processing" +:+
         endl +:+ endl) ;;
  runTests ;;
  mret 0%Z.

(** The process starts with nothing written and [processor] default
    constructed. *)
Definition start : World := {| this := new_SensorProcessor; cout := "" |}.

(** *** Call sequences

    The public interface of the class, as data: a client of a
    [SensorProcessor] performs a sequence of these calls. *)
Inductive Call :=
| AddSensorReading (reading : SensorReading)
| AddAlert (alert : Alert)
| ProcessNextAlert
| FindSensorById (id : Z)
| GetSensorsByLocation (loc : string).

Definition perform (c : Call) : M unit :=
  match c with
  | AddSensorReading reading => addSensorReading reading
  | AddAlert alert => addAlert alert
  | ProcessNextAlert => processNextAlert
  | FindSensorById id => findSensorById id ;; mret tt
  | GetSensorsByLocation loc => getSensorsByLocation loc ;; mret tt
  end.

Definition perform_all (calls : list Call) : M unit := for_each calls perform.

(** The readings passed to [addSensorReading], in call order. *)
Definition readings_of (calls : list Call) : list SensorReading :=
  omap (fun c => match c with AddSensorReading r => Some r | _ => None end) calls.

(** The readings of a call sequence with a given id, or location. *)
Definition with_id (id : Z) (rs : list SensorReading) : list SensorReading :=
  filter (fun r => sensorId r = id) rs.
Definition at_location (loc : string) (rs : list SensorReading) : list SensorReading :=
  filter (fun r => location r = loc) rs.

(** *** The run of [runTests]

    The calls [runTests] makes before it starts processing alerts. *)
Definition runTests_readings : list SensorReading :=
  [ mkSensorReading 101 "Building_A" "temperature" (literal 725 10);
    mkSensorReading 102 "Building_A" "humidity" (literal 452 10);
    mkSensorReading 201 "Building_B" "temperature" (literal 681 10);
    mkSensorReading 202 "Building_B" "humidity" (literal 527 10);
    mkSensorReading 301 "Building_C" "temperature" (literal 743 10) ].

Definition runTests_alerts : list Alert :=
  [ mkAlert 3 "Temperature threshold exceeded" "WARNING";
    mkAlert 9 "Critical system failure" "CRITICAL";
    mkAlert 1 "Low battery detected" "INFO";
    mkAlert 7 "Network connectivity issue" "ERROR" ].

Definition runTests_calls : list Call :=
  map AddSensorReading runTests_readings ++
  [ FindSensorById 102; FindSensorById 999;
    GetSensorsByLocation "Building_A"; GetSensorsByLocation "Building_B";
    GetSensorsByLocation "Building_Z" ] ++
  map AddAlert runTests_alerts.

(** The line [processNextAlert] prints for an alert. *)
Definition processing_line (a : Alert) : string :=
  "Processing Priority " +:+ pretty (priority a) +:+ ": " +:+ message a +:+
  " (" +:+ alertType a +:+ ")" +:+ endl.

(** The lines under EXPECTED COMPLETE OUTPUT at the end of the source
    file, up to the PERFORMANCE ANALYSIS notes that follow them in the
    same comment. *)
Definition expected_lines : list string :=
  [
   "=== Sensor Data Processing System ===";
   "Demonstrating STL container selection for efficient data processing";
   "";
   "=== Sensor Processing System Tests ===";
   "";
   "Adding sensor readings...";
   "Added sensor 101 (temperature) to Building_A";
   "Added sensor 102 (humidity) to Building_A";
   "Added sensor 201 (temperature) to Building_B";
   "Added sensor 202 (humidity) to Building_B";
   "Added sensor 301 (temperature) to Building_C";
   "✓ Sensor data added";
   "";
   "Testing ID-based lookup...";
   "✓ Found sensor 102 in Building_A (value: 45.2)";
   "✓ Correctly returned nullptr for missing sensor 999";
   "";
   "Testing location-based queries...";
   "✓ Found 2 sensors in Building_A:";
   "  - Sensor 101 (temperature)";
   "  - Sensor 102 (humidity)";
   "✓ Found 2 sensors in Building_B";
   "✓ Found 0 sensors in Building_Z (should be 0)";
   "";
   "Testing priority alert processing...";
   "Added alert: Priority 3 - Temperature threshold exceeded";
   "Added alert: Priority 9 - Critical system failure";
   "Added alert: Priority 1 - Low battery detected";
   "Added alert: Priority 7 - Network connectivity issue";
   "";
   "Processing alerts by priority (highest first):";
   "Processing Priority 9: Critical system failure (CRITICAL)";
   "Processing Priority 7: Network connectivity issue (ERROR)";
   "Processing Priority 3: Temperature threshold exceeded (WARNING)";
   "Processing Priority 1: Low battery detected (INFO)";
   "";
   "Trying to process alert from empty queue:";
   "No alerts to process - queue is empty";
   "";
   "=== Testing Complete ==="
  ].

Definition expected_output : string :=
  fold_right (fun line rest => line +:+ endl +:+ rest) "" expected_lines.

(** *** What the containers hold after a call sequence

    The alert vector is a heap for [AlertComparator]; [sensorData] maps
    each id to the latest reading added with it; [locationIndex] maps
    each location that occurred to the ids added there, in call order. *)
Definition tracks (calls : list Call) (s : SensorProcessor) : Prop :=
  is_heap AlertComparator (alertQueue s) (length (alertQueue s))
  ∧ (∀ id, sensorData s !! id = last (with_id id (readings_of calls)))
  ∧ (∀ loc, locationIndex s !! loc =
            match at_location loc (readings_of calls) with
            | [] => None
            | rs => Some (sensorId <$> rs)
            end).

End Sensors.

(** ** The transaction pipeline
    ([stlAlgoPipeline_practice.cpp], [stlAlgoPipeline_practice_range.cpp]) *)

Module Pipeline.
Import IEEE754.

Definition TAX_RATE : double := literal 8 100.
Definition DISCOUNT_THRESHOLD : double := literal 10000 10.
Definition DISCOUNT_RATE : double := literal 10 100.

(** Both files declare the same [struct Transaction]. *)
Record Transaction := mkTransaction {
  id : Z;
  customerId : string;
  amount : double;
  region : string;
  taxAmount : double;
  discount : double;
  finalTotal : double
}.

(** The constructor [Transaction(i, cust, amt, reg)]. *)
Definition new_Transaction (i : Z) (cust : string) (amt : double) (reg : string)
  : Transaction :=
  mkTransaction i cust amt reg (of_int 0) (of_int 0) amt.

Record AlgorithmPipeline := mkAlgorithmPipeline {
  rawTransactions : list Transaction;
  validTransactions : list Transaction
}.

Definition endl : string := String (ascii_of_nat 10) EmptyString.

(** [std::copy_if(first, last, std::back_inserter(out), pred)]: the
    loop over the range; assigning through the inserter is a
    [push_back] on [out]. *)
Fixpoint copy_if {A} (range : list A) (out : list A) (pred : A -> bool) : list A :=
  match range with
  | [] => out
  | x :: rest => copy_if rest (if pred x then out ++ [x] else out) pred
  end.

(** [std::count_if(first, last, pred)], with its running counter. *)
Fixpoint count_if_from {A} (range : list A) (pred : A -> bool) (n : Z) : Z :=
  match range with
  | [] => n
  | x :: rest => count_if_from rest pred (if pred x then n + 1 else n)%Z
  end.
Definition count_if {A} (range : list A) (pred : A -> bool) : Z :=
  count_if_from range pred 0.

(** [class CalculateDerivedValues], identical in the two files: the
    three assignments to the by-value parameter, in order. *)
Definition CalculateDerivedValues (t : Transaction) : Transaction :=
  let t1 := mkTransaction (id t) (customerId t) (amount t) (region t)
              (mul (amount t) TAX_RATE) (discount t) (finalTotal t) in
  let t2 := mkTransaction (id t1) (customerId t1) (amount t1) (region t1)
              (taxAmount t1)
              (if gt (amount t1) DISCOUNT_THRESHOLD
               then mul (amount t1) DISCOUNT_RATE else of_int 0)
              (finalTotal t1) in
  mkTransaction (id t2) (customerId t2) (amount t2) (region t2)
    (taxAmount t2) (discount t2)
    (sub (add (amount t2) (taxAmount t2)) (discount t2)).

(** A double that compares greater than zero: a positive finite number
    or plus infinity. *)
Definition positive_double (x : double) : Prop :=
  match x with
  | S754_finite false _ _ => True
  | S754_infinity false => True
  | _ => False
  end.

(** What [filterValidTransactions] writes to [cout]. *)
Definition statistics (p : AlgorithmPipeline) (invalid_count : Z) : string :=
  "Valid transactions: " +:+ pretty (length (validTransactions p)) +:+ endl +:+
  "Invalid transactions: " +:+ pretty invalid_count +:+ endl.

(** *** [stlAlgoPipeline_practice.cpp] *)
Module Traditional.

Definition hasValidAmount (t : Transaction) : bool := gt (amount t) (of_int 0).
Definition hasValidCustomer (t : Transaction) : bool :=
  0 <? String.length (customerId t).

Definition IsValidTransaction (t : Transaction) : bool :=
  let validity := hasValidAmount t && hasValidCustomer t in
  validity.

(** Returns the object after the call and the text written. *)
Definition filterValidTransactions (p : AlgorithmPipeline)
  : AlgorithmPipeline * string :=
  let out0 := "Original transactions: " +:+
              pretty (length (rawTransactions p)) +:+ endl in
  let isValid := IsValidTransaction in
  let p1 := mkAlgorithmPipeline (rawTransactions p) [] in
  let p2 := mkAlgorithmPipeline (rawTransactions p1)
              (copy_if (rawTransactions p1) (validTransactions p1) isValid) in
  let invalid_count :=
    count_if (rawTransactions p2) (fun t => negb (isValid t)) in
  (p2, out0 +:+ statistics p2 invalid_count).

End Traditional.

(** *** [stlAlgoPipeline_practice_range.cpp] *)
Module Ranges.

Definition string_empty (s : string) : bool :=
  match s with EmptyString => true | _ => false end.

Definition IsValidTransaction (t : Transaction) : bool :=
  let validity := gt (amount t) (of_int 0) && negb (string_empty (customerId t)) in
  validity.

(** The helper functions of this file are still placeholders. *)
Definition hasValidAmount (t : Transaction) : bool := false.
Definition hasValidCustomer (t : Transaction) : bool := false.

(** [std::views::filter]: a view is the underlying range and the
    predicate; nothing is computed when it is built.  An iterator of
    the view is a position in the underlying range, here the suffix
    that starts there; [end()] is the empty suffix. *)
Record filter_view (A : Type) := mk_filter_view {
  base : list A;
  pred : A -> bool
}.
Arguments mk_filter_view {A}.
Arguments base {A}.
Arguments pred {A}.

(** [std::ranges::find_if(it, end, pred)] *)
Fixpoint find_if {A} (it : list A) (p : A -> bool) : list A :=
  match it with
  | [] => []
  | x :: rest => if p x then it else find_if rest p
  end.

Definition view_begin {A} (v : filter_view A) : list A := find_if (base v) (pred v).
Definition view_next {A} (v : filter_view A) (it : list A) : list A :=
  find_if (tail it) (pred v).

(** [std::ranges::to<std::vector>()]: walk the view from [begin()] to
    [end()] and append each element. *)
Equations? collect_from {A} (v : filter_view A) (it : list A) (out : list A)
  : list A by wf (length it) lt :=
  collect_from v [] out := out;
  collect_from v (x :: rest) out := collect_from v (view_next v (x :: rest)) (out ++ [x]).
Proof.
  unfold view_next; simpl.
  assert (forall l : list A, length (find_if l (pred v)) <= length l) as Hle.
  { induction l as [|y l IH]; simpl; [lia|]. destruct (pred v y); simpl; lia. }
  specialize (Hle rest). lia.
Qed.

Definition to_vector {A} (v : filter_view A) : list A :=
  collect_from v (view_begin v) [].

Definition filterValidTransactions (p : AlgorithmPipeline)
  : AlgorithmPipeline * string :=
  let out0 := "Original transactions: " +:+
              pretty (length (rawTransactions p)) +:+ endl in
  let isValid := IsValidTransaction in
  let p1 := mkAlgorithmPipeline (rawTransactions p) [] in
  let p2 := mkAlgorithmPipeline (rawTransactions p1)
              (to_vector (mk_filter_view (rawTransactions p1) isValid)) in
  let invalid_count :=
    count_if (rawTransactions p2) (fun t => negb (isValid t)) in
  (p2, out0 +:+ statistics p2 invalid_count).

End Ranges.

End Pipeline.

(** ** The chunked transform ([stlAlgoPractice_3.cpp])

    A range [first, last) is the list of its elements.  That is what a
    range is for iterators that can go over it more than once (forward
    iterators or stronger): [std::distance] and [std::advance] work on
    copies of the iterator and leave the elements where they are.
    Every call of [transform_parallel_sim] in the file (lines 194-195
    and 219-220) passes the iterators of a [std::vector<double>].  The
    template parameter is named [InputIt], but a single-pass input
    iterator such as [std::istream_iterator] is outside this model:
    there [std::distance(first, last)] at line 77 already reads the
    range to its end, and the loop has one element left to write. *)

Module CustomAlgorithms.
Section Transform.
Context {A B : Type}.

(** A unary operation is a function object: a value of some class [Op]
    whose call operator may read and update the object's own members.
    [call op x] is the result and the object after the call. *)
Context {Op : Type} (call : Op -> A -> B * Op).

(** An output iterator together with the storage it writes to:
    [assign d y] is the effect of [*d++ = y]. *)
Context {Out : Type} (assign : Out -> B -> Out).

(** [std::transform(first, last, d_first, op)]; [op] is passed by value,
    so the caller's object is not changed. *)
Fixpoint std_transform (range : list A) (d_first : Out) (op : Op) : Out :=
  match range with
  | [] => d_first
  | x :: rest =>
      let '(y, op') := call op x in
      std_transform rest (assign d_first y) op'
  end.

Definition chunk_size_of (distance : nat) : nat := Nat.max 1 (distance / 4).

(** The [while (current != last)] loop.  [current] is the part of the
    range from the iterator to [last]. *)
Equations? chunks (distance : nat) (current : list A) (output : Out) (op : Op)
  : Out by wf (length current) lt :=
  chunks distance [] output op := output;
  chunks distance (x :: rest) output op :=
    chunks distance
      (drop (Nat.min (chunk_size_of distance) (length (x :: rest))) (x :: rest))
      (std_transform
         (take (Nat.min (chunk_size_of distance) (length (x :: rest))) (x :: rest))
         output op)
      op.
Proof.
  rewrite length_drop. unfold chunk_size_of. simpl. lia.
Qed.

Definition transform_parallel_sim (range : list A) (d_first : Out) (op : Op) : Out :=
  let distance := length range in
  chunks distance range d_first op.

End Transform.

(** A function object without members: a plain function. *)
Definition stateless {A B} (f : A -> B) : unit -> A -> B * unit :=
  fun _ x => (f x, tt).

(** A functor that counts its calls and returns the count so far:
    [struct { int n = 0; int operator()(T) { return n++; } }]. *)
Definition counter {A} : Z -> A -> Z * Z := fun n _ => (n, (n + 1)%Z).

(** Output through an iterator into a vector: the vector and the
    index the iterator stands at. *)
Definition vector_assign {B} (d : list B * nat) (y : B) : list B * nat :=
  (<[snd d := y]> (fst d), S (snd d)).

(** An output iterator that only counts the zeros written through it.
    With [counter] as the operation a zero is written exactly when a
    fresh copy of the functor is called for the first time, that is,
    once for every call of [std::transform] on a range that is not
    empty. *)
Definition count_zeros (n : nat) (y : Z) : nat :=
  if (y =? 0)%Z then S n else n.

End CustomAlgorithms.

(** ** More of [double]: division, comparisons, fixed notation *)

Module IEEE754Ops.
Import IEEE754.
Local Open Scope Z_scope.

Definition div : double -> double -> double := SFdiv prec emax.

(** [x < y] and [x == y]; false as soon as one side is a NaN. *)
Definition lt (x y : double) : bool := SFltb x y.
Definition eqb (x y : double) : bool := SFeqb x y.

(** [os << std::fixed << std::setprecision(digits) << x]: like
    [printf("%.*f")], the exact value rounded to [digits] decimals, ties
    to even.  A NaN is written as nan; its sign bit, which can add a
    minus sign, is not part of [double]. *)
Definition pad_left (width : Z) (s : string) : string :=
  zeros (width - Z.of_nat (String.length s)) +:+ s.

Definition fixed_digits (digits n d : Z) : string :=
  let R := round_half_even (n * 10 ^ digits) d in
  pretty (R / 10 ^ digits) +:+
  (if 0 <? digits then "." +:+ pad_left digits (pretty (R mod 10 ^ digits)) else "").

Definition print_fixed (digits : Z) (x : double) : string :=
  match x with
  | S754_zero s => (if s then "-" else "") +:+ fixed_digits digits 0 1
  | S754_infinity s => if s then "-inf" else "inf"
  | S754_nan => "nan"
  | S754_finite s m e =>
      let '(n, d) := frac_of m e in
      (if s then "-" else "") +:+ fixed_digits digits n d
  end.
End IEEE754Ops.

(** ** The later stages of the pipeline and its test data *)

Module PipelineStages.
Import IEEE754 IEEE754Ops Pipeline.

(** The rest of the pipeline; these members are the same in the two
    files, up to the [std::ranges::] spelling of [count_if]. *)

Definition extractFinalTotal (t : Transaction) : double := finalTotal t.

Definition IsHighValueTransaction (t : Transaction) : bool :=
  gt (finalTotal t) (of_int 500).

Definition compareByFinalTotal (a b : Transaction) : bool :=
  gt (finalTotal a) (finalTotal b).

(** [a > b] on [std::string]: lexicographic on the bytes. *)
Definition string_gt (a b : string) : bool := String.ltb b a.

Definition compareByRegionThenAmount (a b : Transaction) : bool :=
  if String.eqb (region a) (region b)
  then gt (finalTotal a) (finalTotal b)
  else string_gt (region a) (region b).

(** [std::transform(first, last, first, op)] on one vector: each slot is
    read, then overwritten, then the iterators advance.  [k] slots
    remain from index [i]. *)
Fixpoint transform_in_place {A} (op : A -> A) (k i : nat) (v : list A) : list A :=
  match k with
  | O => v
  | S k' =>
      match v !! i with
      | Some x => transform_in_place op k' (S i) (<[i := op x]> v)
      | None => v
      end
  end.

Definition calculateDerivedValues (p : AlgorithmPipeline)
  : AlgorithmPipeline * string :=
  let calculator := CalculateDerivedValues in
  let p1 := mkAlgorithmPipeline (rawTransactions p)
              (transform_in_place calculator (length (validTransactions p)) 0
                 (validTransactions p)) in
  let out := "Calculated derived values for " +:+
             pretty (length (validTransactions p1)) +:+ " transactions" +:+ endl in
  (p1,
   match validTransactions p1 with
   | [] => out
   | sample :: _ =>
       out +:+ ("Sample: Amount $" +:+ print_fixed 2 (amount sample) +:+
                " -> Final $" +:+ print_fixed 2 (finalTotal sample) +:+ endl)
   end).

(** [std::accumulate(first, last, 0.0, [](auto a, const Transaction& b)
    { return a + b.amount; })] *)
Definition totalRevenue (valid : list Transaction) : double :=
  fold_left (fun a b => add a (amount b)) valid (of_int 0).

(** [totalRevenue / validTransactions.size()] *)
Definition average (valid : list Transaction) : double :=
  div (totalRevenue valid) (of_int (Z.of_nat (length valid))).

(** [generateStatistics]; the result of [minmax_element] is not used. *)
Definition generateStatistics (p : AlgorithmPipeline) : string :=
  let valid := validTransactions p in
  let highValueCount := count_if valid IsHighValueTransaction in
  (endl +:+ "=== Transaction Statistics ===" +:+ endl) +:+
  ("Total Revenue: $" +:+ print_fixed 2 (totalRevenue valid) +:+ endl) +:+
  ("Average Transaction: $" +:+ print_fixed 2 (average valid) +:+ endl) +:+
  ("High-Value Transactions (>$500): " +:+ pretty highValueCount +:+ endl).

(** [generateTestData].  The engine [gen] and the two distributions are
    the only inputs the source does not fix: a distribution maps the
    engine state to a draw and the next state. *)
Section Generator.
Context {Gen : Type}.
Context (amountDist : Gen -> double * Gen) (customerDist : Gen -> Z * Gen).

Definition regions : list string := ["North"; "South"; "East"; "West"].

(** One iteration of the loop, for index [i]. *)
Definition generate_one (i : nat) (gen : Gen) : Transaction * Gen :=
  let '(amount, gen1) :=
    if i mod 50 =? 0 then (of_int (-1), gen) else amountDist gen in
  let '(customerId, gen2) :=
    if i mod 75 =? 0 then ("", gen1)
    else let '(c, g) := customerDist gen1 in ("CUST_" +:+ pretty c, g) in
  (new_Transaction (Z.of_nat i) customerId amount
     (default "" (regions !! (i mod length regions))),
   gen2).

(** [for (int i = ...; i < count; ++i)], with [k = count - i]
    iterations left. *)
Fixpoint generate_from (k i : nat) (gen : Gen) (raw : list Transaction)
  : list Transaction * Gen :=
  match k with
  | O => (raw, gen)
  | S k' =>
      let '(t, gen') := generate_one i gen in
      generate_from k' (S i) gen' (raw ++ [t])
  end.

Definition generateTestData (count : nat) (gen : Gen) (p : AlgorithmPipeline)
  : AlgorithmPipeline * Gen :=
  let '(raw, gen') := generate_from count 0 gen (rawTransactions p) in
  (mkAlgorithmPipeline raw (validTransactions p), gen').

End Generator.

Definition DATASET_SIZE : nat := 1000.

(** The indices at which [generateTestData] does not plant invalid
    data. *)
Definition planted_valid (i : nat) : bool :=
  negb (i mod 50 =? 0) && negb (i mod 75 =? 0).

End PipelineStages.

(** ** The rest of [stlAlgoPractice_3.cpp]: predicates, statistics, verification *)

Module CustomIntegration.
Import IEEE754 IEEE754Ops CustomAlgorithms.

(** [ThresholdFilter<double>] *)
Record ThresholdFilter := mkThresholdFilter {
  threshold : double;
  aboveThreshold : bool
}.

Definition ThresholdFilter_call (f : ThresholdFilter) (value : double) : bool :=
  if aboveThreshold f then gt value (threshold f) else lt value (threshold f).

(** [find_all(container, pred)] *)
Definition find_all {A} (container : list A) (pred : A -> bool) : list A :=
  Pipeline.copy_if container [] pred.

Definition endl : string := String (ascii_of_nat 10) EmptyString.

(** [demonstrateCustomPredicates], for the contents of [performanceData]. *)
Definition demonstrateCustomPredicates (performanceData : list double) : string :=
  let highPerformance := mkThresholdFilter (of_int 120) true in
  let lowPerformance := mkThresholdFilter (of_int 80) false in
  let highPerformers := find_all performanceData (ThresholdFilter_call highPerformance) in
  let lowPerformers := find_all performanceData (ThresholdFilter_call lowPerformance) in
  let extremePerformers :=
    find_all performanceData (fun val =>
      ThresholdFilter_call (mkThresholdFilter (of_int 130) true) val
      || ThresholdFilter_call (mkThresholdFilter (of_int 70) false) val) in
  (endl +:+ "=== CUSTOM PREDICATE ALGORITHMS ===" +:+ endl) +:+
  ("High performers (>120): " +:+ pretty (length highPerformers) +:+ endl) +:+
  ("Low performers (<80): " +:+ pretty (length lowPerformers) +:+ endl) +:+
  ("Extreme performers (>130 or <70): " +:+ pretty (length extremePerformers) +:+ endl).

(** [std::equal(first1, last1, first2)] on doubles, with [==]. *)
Fixpoint std_equal (range1 range2 : list double) : bool :=
  match range1, range2 with
  | [], _ => true
  | x :: rest1, y :: rest2 => if eqb x y then std_equal rest1 rest2 else false
  | _ :: _, [] => false
  end.

(** The data flow of [demonstratePerformanceOptimization]: the two
    result vectors and the verification.  The lambda is
    [val * 1.1]; each result vector starts as [size()] zeros. *)
Definition increase (val : double) : double := mul val (literal 11 10).

Definition standardResults (performanceData : list double) : list double :=
  fst (std_transform (stateless increase) vector_assign performanceData
         (replicate (length performanceData) (of_int 0), 0) tt).

Definition parallelResults (performanceData : list double) : list double :=
  fst (transform_parallel_sim (stateless increase) vector_assign performanceData
         (replicate (length performanceData) (of_int 0), 0) tt).

Definition resultsMatch (performanceData : list double) : bool :=
  std_equal (standardResults performanceData) (parallelResults performanceData).



(** The chunks the loop of [transform_parallel_sim] cuts a range into:
    pieces of [k] elements, the last one possibly shorter. *)
Fixpoint chunked_upto {A} (fuel k : nat) (l : list A) : list (list A) :=
  match fuel, l with
  | S fuel', _ :: _ => take k l :: chunked_upto fuel' k (drop k l)
  | _, _ => []
  end.
Definition chunked {A} (k : nat) (l : list A) : list (list A) :=
  chunked_upto (length l) k l.

End CustomIntegration.

(** * Properties *)

(** ** Stream insertion of doubles: the formats of [printf("%g")] *)

Module IEEE754Facts.
Import IEEE754.

Example print_double_formats :
  print_double <$>
    [ literal 452 10; literal 725 10; of_int 1000; literal 1 10000;
      literal 1 100000; of_int 1234567; of_int 100000; literal 9999995 10;
      of_int 0; literal (-15) 10; literal 1 3; literal 123456789 1000 ]
  = [ "45.2"; "72.5"; "1000"; "0.0001"; "1e-05"; "1.23457e+06"; "100000";
      "1e+06"; "0"; "-1.5"; "0.333333"; "123457" ].
Proof. vm_compute. reflexivity. Qed.

End IEEE754Facts.

(** ** The heap algorithms keep the heap

    For a comparison that is asymmetric and whose negation is
    transitive (a strict weak ordering). *)

Module StdHeapFacts.
Import StdHeap.

Section HeapFacts.
Context {T : Type} (comp : T -> T -> bool).
Hypothesis comp_asym : ∀ a b, comp a b = true → comp b a = false.
Hypothesis comp_negtrans :
  ∀ a b c, comp a b = false → comp b c = false → comp a c = false.

Lemma parent_lt i : 0 < i → (i - 1) / 2 < i.
Proof. intros. apply Nat.Div0.div_lt_upper_bound. lia. Qed.

Lemma fill_swap (v : list T) h h' x p :
  h ≠ h' → h < length v → v !! h' = Some p →
  <[h' := x]> (<[h := p]> v) ≡ₚ <[h := x]> v.
Proof.
  intros Hne Hlt Hp.
  rewrite <- (list_insert_insert_eq v h p x).
  apply Permutation_insert_swap.
  - apply list_lookup_insert_eq. lia.
  - rewrite list_lookup_insert_ne by done. done.
Qed.

Lemma place_is_heap (v : list T) (h n : nat) (x : T) :
  h < n → n ≤ length v → holed comp v n h → dominates comp x v n h →
  (h = 0 ∨ ∃ p, v !! ((h - 1) / 2) = Some p ∧ comp p x = false) →
  is_heap comp (<[h := x]> v) n.
Proof.
  intros Hh Hn [Ha Hb] Hd Htop i p c Hi Hp Hc.
  destruct (decide (i = h)) as [->|Hih].
  - rewrite list_lookup_insert_eq in Hc by lia. injection Hc as <-.
    pose proof (parent_lt h ltac:(lia)).
    rewrite list_lookup_insert_ne in Hp by lia.
    destruct Htop as [?|(p' & Hp' & Hcmp)]; [lia|]. congruence.
  - rewrite list_lookup_insert_ne in Hc by done.
    destruct (decide ((i - 1) / 2 = h)) as [Hpar|Hpar].
    + rewrite Hpar in Hp. rewrite list_lookup_insert_eq in Hp by lia.
      injection Hp as <-. eapply Hd; eauto.
    + rewrite list_lookup_insert_ne in Hp by done. eapply Ha; eauto.
Qed.

Lemma hole_up (v : list T) (h n : nat) (x p : T) :
  0 < h → h < n → n ≤ length v → holed comp v n h → dominates comp x v n h →
  v !! ((h - 1) / 2) = Some p → comp p x = true →
  holed comp (<[h := p]> v) n ((h - 1) / 2)
  ∧ dominates comp x (<[h := p]> v) n ((h - 1) / 2).
Proof.
  intros H0 Hh Hn [Ha Hb] Hd Hp Hcmp.
  pose proof (parent_lt h H0) as Hlt.
  split; [split|].
  - intros i q c Hi Hne Hpne Hq Hc.
    assert (i ≠ h) by (intros ->; done).
    rewrite list_lookup_insert_ne in Hc by done.
    destruct (decide ((i - 1) / 2 = h)) as [Hpar|Hpar].
    + rewrite Hpar in Hq. rewrite list_lookup_insert_eq in Hq by lia.
      injection Hq as <-. eapply Hb; eauto.
    + rewrite list_lookup_insert_ne in Hq by done. eapply Ha; eauto.
  - intros i g c Hi Hpar Hpos Hg Hc.
    pose proof (parent_lt _ Hpos) as Hlt'.
    rewrite list_lookup_insert_ne in Hg by lia.
    assert (comp g p = false) as Hgp.
    { eapply (Ha ((h - 1) / 2)); eauto; lia. }
    destruct (decide (i = h)) as [->|Hih].
    + rewrite list_lookup_insert_eq in Hc by lia. by injection Hc as <-.
    + rewrite list_lookup_insert_ne in Hc by done.
      eapply comp_negtrans; [exact Hgp|].
      eapply (Ha i); eauto; try lia. by rewrite Hpar.
  - intros i c Hi Hpar Hc.
    apply comp_asym in Hcmp.
    destruct (decide (i = h)) as [->|Hih].
    + rewrite list_lookup_insert_eq in Hc by lia. by injection Hc as <-.
    + rewrite list_lookup_insert_ne in Hc by done.
      eapply comp_negtrans; [exact Hcmp|].
      eapply (Ha i); eauto; try lia. by rewrite Hpar.
Qed.

Lemma push_heap_aux_spec (v : list T) (h top : nat) (x : T) (n : nat) :
  top = 0 → h < n → n ≤ length v → holed comp v n h → dominates comp x v n h →
  is_heap comp (push_heap_aux comp v h top x) n
  ∧ length (push_heap_aux comp v h top x) = length v
  ∧ (∀ j, n ≤ j → push_heap_aux comp v h top x !! j = v !! j)
  ∧ push_heap_aux comp v h top x ≡ₚ <[h := x]> v.
Proof.
  funelim (push_heap_aux comp v h top x); intros -> Hh Hn Hhole Hd.
  - split_and!; [|by rewrite length_insert| |done].
    + apply place_is_heap; auto. left; lia.
    + intros j Hj. apply list_lookup_insert_ne. lia.
  - exfalso. apply lookup_ge_None in Heq.
    pose proof (parent_lt holeIndex l). lia.
  - pose proof (parent_lt holeIndex l) as Hlt.
    destruct (hole_up first holeIndex n value p) as [Hhole' Hd']; auto.
    destruct (H n) as (IH1 & IH2 & IH3 & IH4); auto; try lia.
    { rewrite length_insert. lia. }
    rewrite length_insert in IH2.
    split_and!; auto.
    + intros j Hj. rewrite IH3 by done. apply list_lookup_insert_ne. lia.
    + rewrite IH4. apply fill_swap; [lia|lia|done].
  - split_and!; [|by rewrite length_insert| |done].
    + apply place_is_heap; auto. right; eauto.
    + intros j Hj. apply list_lookup_insert_ne. lia.
Qed.

Lemma hole_down (v : list T) (h n c : nat) (y : T) :
  h < n → n ≤ length v → holed comp v n h →
  (c - 1) / 2 = h → 0 < c < n → v !! c = Some y →
  (∀ i z, 0 < i < n → (i - 1) / 2 = h → v !! i = Some z → comp y z = false) →
  holed comp (<[h := y]> v) n c
  ∧ ∀ x, <[c := x]> (<[h := y]> v) ≡ₚ <[h := x]> v.
Proof.
  intros Hh Hn [Ha Hb] Hpar Hc Hy Hbest.
  assert (h < c) as Hhc.
  { pose proof (parent_lt c ltac:(lia)). lia. }
  split; [split|].
  - intros i p z Hi Hne Hpne Hp Hz.
    destruct (decide (i = h)) as [->|Hih].
    + rewrite list_lookup_insert_eq in Hz by lia. injection Hz as <-.
      pose proof (parent_lt h ltac:(lia)).
      rewrite list_lookup_insert_ne in Hp by lia.
      eapply (Hb c); eauto. lia.
    + rewrite list_lookup_insert_ne in Hz by done.
      destruct (decide ((i - 1) / 2 = h)) as [Hpi|Hpi].
      * rewrite Hpi in Hp. rewrite list_lookup_insert_eq in Hp by lia.
        injection Hp as <-. eapply Hbest; eauto.
      * rewrite list_lookup_insert_ne in Hp by done. eapply Ha; eauto.
  - intros i g z Hi Hpi Hpos Hg Hz.
    rewrite Hpar in Hg. rewrite list_lookup_insert_eq in Hg by lia.
    injection Hg as <-.
    assert (c < i) by (pose proof (parent_lt i ltac:(lia)); lia).
    rewrite list_lookup_insert_ne in Hz by lia.
    eapply (Ha i); eauto; try lia. by rewrite Hpi.
  - intros x. apply fill_swap; [lia|lia|done].
Qed.

Lemma children i h : 0 < i → (i - 1) / 2 = h → i = 2 * h + 1 ∨ i = 2 * h + 2.
Proof.
  intros Hi Hp.
  pose proof (Nat.div_mod_eq (i - 1) 2).
  pose proof (Nat.mod_upper_bound (i - 1) 2). lia.
Qed.

Lemma twice_half n : 2 * (n / 2) ≤ n.
Proof. apply Nat.Div0.mul_div_le. Qed.

Lemma parent_left h : (2 * (h + 1) - 1 - 1) / 2 = h.
Proof.
  replace (2 * (h + 1) - 1 - 1) with (h * 2) by lia. apply Nat.div_mul. lia.
Qed.

Lemma parent_right h : (2 * (h + 1) - 1) / 2 = h.
Proof.
  pose proof (Nat.div_mod_eq (2 * (h + 1) - 1) 2).
  pose proof (Nat.mod_upper_bound (2 * (h + 1) - 1) 2). lia.
Qed.

Lemma comp_irrefl a : comp a a = false.
Proof.
  destruct (comp a a) eqn:E; [|done].
  pose proof (comp_asym a a E). congruence.
Qed.

(** The child chosen by the comparison is not below its sibling. *)
Lemma chosen_child (v : list T) (h n : nat) (r l y : T) :
  v !! (2 * (h + 1)) = Some r → v !! (2 * (h + 1) - 1) = Some l →
  (comp r l = true ∧ y = l) ∨ (comp r l = false ∧ y = r) →
  ∀ i z, 0 < i < n → (i - 1) / 2 = h → v !! i = Some z → comp y z = false.
Proof.
  intros Hr Hl Hy i z Hi Hpi Hz.
  destruct (children i h) as [->| ->]; auto; try lia.
  - replace (2 * h + 1) with (2 * (h + 1) - 1) in Hz by lia.
    assert (z = l) as -> by congruence.
    destruct Hy as [[? ->]|[? ->]]; [apply comp_irrefl|done].
  - replace (2 * h + 2) with (2 * (h + 1)) in Hz by lia.
    assert (z = r) as -> by congruence.
    destruct Hy as [[? ->]|[? ->]]; [by apply comp_asym|apply comp_irrefl].
Qed.

Lemma adjust_heap_loop_spec (v : list T) (h sc len : nat) :
  sc = h → h < len → len ≤ length v → holed comp v len h →
  ∃ v' h',
    adjust_heap_loop comp v h sc len = (v', h', h')
    ∧ h' < len ∧ ¬ h' < (len - 1) / 2
    ∧ holed comp v' len h'
    ∧ length v' = length v
    ∧ (∀ j, len ≤ j → v' !! j = v !! j)
    ∧ (∀ x, <[h' := x]> v' ≡ₚ <[h := x]> v).
Proof.
  funelim (adjust_heap_loop comp v h sc len); intros -> Hh Hlen Hhole;
    pose proof (twice_half (len - 1)) as Hhalf;
    try (exfalso;
         match goal with
         | Hnone : _ !! _ = None |- _ => apply lookup_ge_None in Hnone; lia
         end).
  - exists first, holeIndex. split_and!; auto.
  - match goal with
    | Hr : first !! (2 * (holeIndex + 1)) = Some ?r,
      Hl : first !! (2 * (holeIndex + 1) - 1) = Some ?l,
      IH : _ = _ → _ |- _ =>
        destruct (hole_down first holeIndex len (2 * (holeIndex + 1) - 1) l)
          as [Hhole' Hperm]; auto using parent_left; try lia;
        [ eapply chosen_child; eauto
        | destruct IH as (v' & h' & Heq' & ? & ? & ? & Hl' & Hj & Hp);
          auto; try lia; [rewrite length_insert; lia|] ]
    end.
    rewrite length_insert in Hl'.
    exists v', h'. split_and!; auto.
    + intros j ?. rewrite Hj by done. apply list_lookup_insert_ne. lia.
    + intros x. rewrite Hp. apply Hperm.
  - match goal with
    | Hr : first !! (2 * (holeIndex + 1)) = Some ?r,
      Hl : first !! (2 * (holeIndex + 1) - 1) = Some ?l,
      IH : _ = _ → _ |- _ =>
        destruct (hole_down first holeIndex len (2 * (holeIndex + 1)) r)
          as [Hhole' Hperm]; auto using parent_right; try lia;
        [ eapply chosen_child; eauto
        | destruct IH as (v' & h' & Heq' & ? & ? & ? & Hl' & Hj & Hp);
          auto; try lia; [rewrite length_insert; lia|] ]
    end.
    rewrite length_insert in Hl'.
    exists v', h'. split_and!; auto.
    + intros j ?. rewrite Hj by done. apply list_lookup_insert_ne. lia.
    + intros x. rewrite Hp. apply Hperm.
Qed.

Lemma leaf_dominates (v : list T) (n h : nat) (x : T) :
  (∀ i, 0 < i < n → (i - 1) / 2 ≠ h) → dominates comp x v n h.
Proof. intros Hleaf i c Hi Hpar _. by destruct (Hleaf i Hi). Qed.

Lemma adjust_heap_spec (v : list T) (len : nat) (x : T) :
  0 < len → len ≤ length v → holed comp v len 0 →
  is_heap comp (adjust_heap comp v 0 len x) len
  ∧ length (adjust_heap comp v 0 len x) = length v
  ∧ (∀ j, len ≤ j → adjust_heap comp v 0 len x !! j = v !! j)
  ∧ adjust_heap comp v 0 len x ≡ₚ <[0 := x]> v.
Proof.
  intros Hpos Hlen Hhole. unfold adjust_heap.
  destruct (adjust_heap_loop_spec v 0 0 len)
    as (v' & h' & -> & Hh' & Hstop & Hhole' & Hl & Hj & Hp); auto.
  pose proof (twice_half (len - 1)) as Hhalf.
  destruct (Nat.even len && (h' =? (len - 2) / 2)) eqn:Hlast.
  - apply andb_true_iff in Hlast as [Heven Hh'eq].
    apply Nat.even_spec in Heven as [k ->]. apply Nat.eqb_eq in Hh'eq.
    assert ((2 * k - 2) / 2 = k - 1) as Hk.
    { replace (2 * k - 2) with ((k - 1) * 2) by lia. apply Nat.div_mul. lia. }
    rewrite Hk in Hh'eq. subst h'.
    replace (2 * (k - 1 + 1) - 1) with (2 * k - 1) by lia.
    destruct (v' !! (2 * k - 1)) as [l|] eqn:El;
      [|apply lookup_ge_None in El; lia].
    destruct (hole_down v' (k - 1) (2 * k) (2 * k - 1) l)
      as [Hhole'' Hperm]; auto; try lia.
    { replace (2 * k - 1 - 1) with ((k - 1) * 2) by lia. apply Nat.div_mul. lia. }
    { intros i z Hi Hpi Hz.
      destruct (children i (k - 1)) as [->| ->]; auto; try lia.
      replace (2 * (k - 1) + 1) with (2 * k - 1) in Hz by lia.
      assert (z = l) as -> by congruence. apply comp_irrefl. }
    destruct (push_heap_aux_spec (<[k - 1 := l]> v') (2 * k - 1) 0 x (2 * k))
      as (R1 & R2 & R3 & R4); auto; try lia.
    { rewrite length_insert. lia. }
    { apply leaf_dominates. intros i Hi Hpi.
      destruct (children i (2 * k - 1)); lia. }
    rewrite length_insert in R2.
    split_and!; auto; try lia.
    + intros j ?. rewrite R3 by done.
      rewrite list_lookup_insert_ne by lia. auto.
    + by rewrite R4, Hperm, Hp.
  - destruct (push_heap_aux_spec v' h' 0 x len)
      as (R1 & R2 & R3 & R4); auto; try lia.
    { apply leaf_dominates. intros i Hi Hpi.
      apply andb_false_iff in Hlast.
      assert (len ≤ 2 * h' + 1) as Hleaf.
      { destruct (Nat.even len) eqn:Heven.
        - apply Nat.even_spec in Heven as [k ->].
          destruct Hlast as [?|Hne]; [done|]. apply Nat.eqb_neq in Hne.
          assert ((2 * k - 2) / 2 = k - 1) as Hk.
          { replace (2 * k - 2) with ((k - 1) * 2) by lia. apply Nat.div_mul. lia. }
          pose proof (Nat.div_mod_eq (2 * k - 1) 2).
          pose proof (Nat.mod_upper_bound (2 * k - 1) 2). lia.
        - assert (Nat.odd len = true) as Hodd by (by rewrite <- Nat.negb_even, Heven).
          apply Nat.odd_spec in Hodd as [k ->].
          replace (2 * k + 1 - 1) with (k * 2) in Hstop by lia.
          rewrite Nat.div_mul in Hstop by lia. lia. }
      destruct (children i h'); lia. }
    split_and!; auto; try lia.
    + intros j ?. rewrite R3 by done. auto.
    + by rewrite R4, Hp.
Qed.

(** Only the first [n] slots matter to [is_heap _ n]. *)
Lemma is_heap_ext (v w : list T) (n : nat) :
  (∀ i, i < n → v !! i = w !! i) → is_heap comp v n → is_heap comp w n.
Proof.
  intros Hext Hv i p c Hi Hp Hc.
  pose proof (parent_lt i ltac:(lia)).
  eapply (Hv i); eauto; rewrite Hext; auto; lia.
Qed.

Lemma is_heap_holed (v : list T) (n h : nat) :
  is_heap comp v n → (∀ i, 0 < i < n → (i - 1) / 2 = h → h = 0) →
  holed comp v n h.
Proof.
  intros Hv Hroot. split.
  - intros i p c Hi _ _. by apply Hv.
  - intros i g c Hi Hpar Hpos. specialize (Hroot i Hi Hpar). lia.
Qed.

Lemma push_heap_spec (c : list T) (x : T) :
  is_heap comp c (length c) →
  is_heap comp (push_heap comp (c ++ [x])) (S (length c))
  ∧ length (push_heap comp (c ++ [x])) = S (length c)
  ∧ push_heap comp (c ++ [x]) ≡ₚ x :: c.
Proof.
  intros Hc. unfold push_heap.
  rewrite last_snoc, length_app. simpl.
  replace (length c + 1 - 1) with (length c) by lia.
  destruct (push_heap_aux_spec (c ++ [x]) (length c) 0 x (S (length c)))
    as (R1 & R2 & R3 & R4); auto; try lia.
  { rewrite length_app. simpl. lia. }
  { split.
    - intros i p z Hi Hne Hpne Hp Hz.
      pose proof (parent_lt i ltac:(lia)).
      rewrite lookup_app_l in Hp by lia. rewrite lookup_app_l in Hz by lia.
      eapply (Hc i); eauto. lia.
    - intros i g z Hi Hpar. pose proof (parent_lt i ltac:(lia)). lia. }
  { apply leaf_dominates. intros i Hi Hpar.
    pose proof (parent_lt i ltac:(lia)). lia. }
  rewrite length_app in R2. simpl in R2.
  split_and!; auto; try lia.
  rewrite R4.
  rewrite insert_app_r_alt by lia. rewrite Nat.sub_diag. simpl.
  by rewrite Permutation_app_comm.
Qed.

Lemma pop_heap_spec (c : list T) :
  is_heap comp c (length c) →
  is_heap comp (removelast (pop_heap comp c)) (length c - 1)
  ∧ length (removelast (pop_heap comp c)) = length c - 1
  ∧ removelast (pop_heap comp c) ≡ₚ tail c.
Proof.
  intros Hc. unfold pop_heap.
  destruct (1 <? length c) eqn:Hlen.
  2:{ apply Nat.ltb_ge in Hlen.
      destruct c as [|a [|b c]]; simpl in *; try lia; split_and!; auto;
        intros i p z Hi; lia. }
  apply Nat.ltb_lt in Hlen.
  destruct (c !! (length c - 1)) as [value|] eqn:Ev;
    [|apply lookup_ge_None in Ev; lia].
  destruct (c !! 0) as [top|] eqn:Et; [|apply lookup_ge_None in Et; lia].
  set (n := length c - 1) in *.
  destruct (adjust_heap_spec (<[n := top]> c) n value)
    as (R1 & R2 & R3 & R4); auto; try lia.
  { rewrite length_insert. lia. }
  { apply is_heap_holed.
    - apply (is_heap_ext c).
      + intros i Hi. by rewrite list_lookup_insert_ne by lia.
      + intros i p z Hi. apply Hc. lia.
    - intros i Hi Hpar. done. }
  rewrite length_insert in R2.
  set (r := adjust_heap comp (<[n:=top]> c) 0 n value) in *.
  assert (r = take n r ++ [top]) as Hr.
  { apply list_eq. intros i.
    destruct (decide (i < n)).
    - rewrite lookup_app_l by (rewrite length_take; lia).
      by rewrite lookup_take_lt.
    - rewrite lookup_app_r by (rewrite length_take; lia).
      rewrite length_take, R2.
      replace (n `min` length c) with n by lia.
      destruct (decide (i = n)) as [->|].
      + rewrite Nat.sub_diag. simpl. rewrite R3 by lia.
        apply list_lookup_insert_eq. lia.
      + rewrite (lookup_ge_None_2 r) by lia.
        symmetry. apply lookup_ge_None_2. simpl. lia. }
  assert (removelast r = take n r) as ->.
  { rewrite Hr at 1. by rewrite removelast_last. }
  split_and!.
  - apply (is_heap_ext r); [|done].
    intros i Hi. by rewrite lookup_take_lt.
  - rewrite length_take. lia.
  - apply (inj (.++ [top])).
    rewrite <- Hr, R4.
    rewrite Permutation_insert_swap by done.
    destruct c as [|a c]; [done|]. simpl in Et. injection Et as ->.
    simpl. by rewrite Permutation_app_comm.
Qed.

(** The root of a heap is not below any element. *)
Lemma heap_top_max (c : list T) (t : T) :
  is_heap comp c (length c) → c !! 0 = Some t →
  ∀ i y, c !! i = Some y → comp t y = false.
Proof.
  intros Hc Ht i. induction i as [i IH] using lt_wf_ind. intros y Hy.
  destruct (decide (i = 0)) as [->|Hi].
  - assert (y = t) as -> by congruence. apply comp_irrefl.
  - pose proof (parent_lt i ltac:(lia)) as Hlt.
    pose proof (lookup_lt_Some _ _ _ Hy).
    destruct (c !! ((i - 1) / 2)) as [p|] eqn:Ep;
      [|apply lookup_ge_None in Ep; lia].
    eapply comp_negtrans; [by apply (IH _ Hlt)|].
    eapply (Hc i); eauto. lia.
Qed.
End HeapFacts.

End StdHeapFacts.

(** ** The sensor processor *)

Module SensorFacts.
Import IEEE754 StdHeap StdHeapFacts Sensors.

Lemma AlertComparator_asym a b :
  AlertComparator a b = true → AlertComparator b a = false.
Proof. unfold AlertComparator. lia. Qed.

Lemma AlertComparator_negtrans a b c :
  AlertComparator a b = false → AlertComparator b c = false →
  AlertComparator a c = false.
Proof. unfold AlertComparator. lia. Qed.

Lemma for_each_snoc {A} (l : list A) (x : A) (body : A → M unit) w :
  for_each (l ++ [x]) body w =
  match for_each l body w with
  | Some (_, w') => body x w'
  | None => None
  end.
Proof.
  revert w. induction l as [|y l IH]; intros w; simpl.
  - unfold mbind, M_bind. destruct (body x w) as [[[] w']|]; reflexivity.
  - unfold mbind, M_bind. destruct (body y w) as [[[] w']|]; [apply IH|done].
Qed.

Lemma readings_of_snoc calls c :
  readings_of (calls ++ [c]) =
  readings_of calls ++ match c with AddSensorReading r => [r] | _ => [] end.
Proof.
  unfold readings_of. rewrite omap_app. f_equal. by destruct c.
Qed.

Lemma tracks_start : tracks [] new_SensorProcessor.
Proof.
  split_and!; simpl.
  - intros i p c Hi. lia.
  - intros id. apply lookup_empty.
  - intros loc. apply lookup_empty.
Qed.

Lemma tracks_addSensorReading calls s r :
  tracks calls s →
  tracks (calls ++ [AddSensorReading r])
    {| sensorData := <[sensorId r := r]> (sensorData s);
       locationIndex :=
         <[location r := default [] (locationIndex s !! location r) ++ [sensorId r]]>
           (locationIndex s);
       alertQueue := alertQueue s |}.
Proof.
  intros (Hq & Hd & Hl). unfold tracks. rewrite readings_of_snoc. split_and!; simpl; auto.
  - intros id. unfold with_id. rewrite filter_app, filter_cons, filter_nil.
    destruct (decide (sensorId r = id)) as [->|Hne].
    + rewrite lookup_insert_eq. by rewrite last_snoc.
    + rewrite lookup_insert_ne by done. rewrite app_nil_r. apply Hd.
  - intros loc. specialize (Hl loc). unfold at_location in *.
    rewrite filter_app, filter_cons, filter_nil.
    destruct (decide (location r = loc)) as [Heq|Hne].
    + rewrite Heq, lookup_insert_eq, Hl.
      destruct (filter _ (readings_of calls)) as [|r0 rs]; simpl; [done|].
      by rewrite fmap_app.
    + rewrite lookup_insert_ne by done. by rewrite app_nil_r.
Qed.

Lemma tracks_other calls c s :
  match c with AddSensorReading _ => False | _ => True end →
  tracks calls s → ∀ q,
  is_heap AlertComparator q (length q) →
  tracks (calls ++ [c])
    {| sensorData := sensorData s; locationIndex := locationIndex s; alertQueue := q |}.
Proof.
  intros Hc (Hq & Hd & Hl) q Hq'. unfold tracks. rewrite readings_of_snoc.
  destruct c; try done; rewrite app_nil_r; split_and!; auto.
Qed.

Lemma tracks_same calls c s :
  match c with AddSensorReading _ => False | _ => True end →
  tracks calls s → tracks (calls ++ [c]) s.
Proof.
  intros Hc Ht. destruct s. apply (tracks_other calls c _ Hc Ht). apply Ht.
Qed.

(** The effect of each member function on the program state. *)
Lemma addSensorReading_run r s out :
  addSensorReading r (mkWorld s out) =
  Some (tt, mkWorld
    {| sensorData := <[sensorId r := r]> (sensorData s);
       locationIndex :=
         <[location r := default [] (locationIndex s !! location r) ++ [sensorId r]]>
           (locationIndex s);
       alertQueue := alertQueue s |}
    (out +:+ ("Added sensor " +:+ pretty (sensorId r) +:+ " (" +:+
              sensorType r +:+ ") to " +:+ location r +:+ endl))).
Proof. reflexivity. Qed.

Lemma addAlert_run a s out :
  addAlert a (mkWorld s out) =
  Some (tt, mkWorld
    {| sensorData := sensorData s;
       locationIndex := locationIndex s;
       alertQueue := pq_push AlertComparator a (alertQueue s) |}
    (out +:+ ("Added alert: Priority " +:+ pretty (priority a) +:+ " - " +:+
              message a +:+ endl))).
Proof. reflexivity. Qed.

Lemma processNextAlert_run_empty s out :
  alertQueue s = [] →
  processNextAlert (mkWorld s out) =
  Some (tt, mkWorld s (out +:+ ("No alerts to process - queue is empty" +:+ endl))).
Proof.
  intros Hq. unfold processNextAlert, mbind, M_bind, get_this. simpl.
  by rewrite Hq.
Qed.

Lemma processNextAlert_run_top s out a q :
  alertQueue s = a :: q →
  processNextAlert (mkWorld s out) =
  Some (tt, mkWorld
    {| sensorData := sensorData s;
       locationIndex := locationIndex s;
       alertQueue := pq_pop AlertComparator (a :: q) |}
    (out +:+ processing_line a)).
Proof.
  intros Hq. unfold processNextAlert, mbind, M_bind, get_this. simpl.
  by rewrite Hq.
Qed.

Lemma findSensorById_run id s out :
  findSensorById id (mkWorld s out) =
  Some (match sensorData s !! id with Some _ => node_of id | None => nullptr end,
        mkWorld s out).
Proof.
  unfold findSensorById, mbind, M_bind, get_this. simpl.
  by destruct (sensorData s !! id).
Qed.

Lemma getSensorsByLocation_run loc s out :
  getSensorsByLocation loc (mkWorld s out) =
  Some (match locationIndex s !! loc with
        | Some ids => fold_left (collect s) ids []
        | None => []
        end, mkWorld s out).
Proof.
  unfold getSensorsByLocation, mbind, M_bind, get_this. simpl.
  by destruct (locationIndex s !! loc).
Qed.

Lemma perform_tracks calls c w :
  tracks calls (this w) →
  ∃ w', perform c w = Some (tt, w') ∧ tracks (calls ++ [c]) (this w').
Proof.
  intros Ht. destruct w as [s out]. simpl in Ht.
  destruct c as [r|a| |id|loc]; simpl.
  - rewrite addSensorReading_run. eexists. split; [reflexivity|]. simpl.
    by apply tracks_addSensorReading.
  - rewrite addAlert_run. eexists. split; [reflexivity|]. simpl.
    apply (tracks_other calls (AddAlert a) s I Ht).
    unfold pq_push.
    destruct (push_heap_spec AlertComparator AlertComparator_asym
                AlertComparator_negtrans (alertQueue s) a (proj1 Ht))
      as (H1 & H2 & _).
    by rewrite H2.
  - destruct (alertQueue s) as [|t q] eqn:Eq.
    + rewrite processNextAlert_run_empty by done.
      eexists. split; [reflexivity|]. simpl.
      by apply (tracks_same calls ProcessNextAlert s I).
    + rewrite (processNextAlert_run_top _ _ t q) by done.
      eexists. split; [reflexivity|]. simpl.
      apply (tracks_other calls ProcessNextAlert s I Ht).
      unfold pq_pop.
      destruct (pop_heap_spec AlertComparator AlertComparator_asym
                  AlertComparator_negtrans (t :: q)) as (H1 & H2 & _).
      { rewrite <- Eq. apply Ht. }
      by rewrite H2.
  - unfold mbind, M_bind. rewrite findSensorById_run.
    eexists. split; [reflexivity|]. simpl.
    by apply (tracks_same calls (FindSensorById id) s I).
  - unfold mbind, M_bind. rewrite getSensorsByLocation_run.
    eexists. split; [reflexivity|]. simpl.
    by apply (tracks_same calls (GetSensorsByLocation loc) s I).
Qed.

(** Every call sequence runs to completion, and the containers then hold
    what [tracks] says. *)
Lemma perform_all_tracks calls :
  ∃ w, perform_all calls start = Some (tt, w) ∧ tracks calls (this w).
Proof.
  induction calls as [|c calls IH] using rev_ind.
  - exists start. split; [reflexivity|apply tracks_start].
  - destruct IH as (w & Hw & Ht).
    destruct (perform_tracks calls c w Ht) as (w' & Hw' & Ht').
    exists w'. split; [|done].
    unfold perform_all. rewrite for_each_snoc.
    unfold perform_all in Hw. by rewrite Hw.
Qed.


Lemma stored_reading calls s r :
  tracks calls s → r ∈ readings_of calls →
  ∃ latest, sensorData s !! sensorId r = Some latest
            ∧ last (with_id (sensorId r) (readings_of calls)) = Some latest.
Proof.
  intros (_ & Hd & _) Hr. rewrite Hd.
  destruct (last (with_id (sensorId r) (readings_of calls))) as [latest|] eqn:E.
  - by exists latest.
  - apply last_None in E.
    assert (r ∈ with_id (sensorId r) (readings_of calls)) as Hin.
    { unfold with_id. by apply list_elem_of_filter. }
    rewrite E in Hin. by apply elem_of_nil in Hin.
Qed.

Lemma collect_all (s : SensorProcessor) (ids : list Z) acc :
  (∀ id, id ∈ ids → is_Some (sensorData s !! id)) →
  fold_left (collect s) ids acc = acc ++ (node_of <$> ids).
Proof.
  revert acc. induction ids as [|id ids IH]; intros acc Hall; simpl.
  - by rewrite app_nil_r.
  - rewrite IH by (intros; apply Hall; by right).
    unfold collect. destruct (Hall id) as [r ->]; [by left|].
    by rewrite <- app_assoc.
Qed.

Lemma indexed_ids_stored calls s loc ids id :
  tracks calls s → locationIndex s !! loc = Some ids → id ∈ ids →
  is_Some (sensorData s !! id).
Proof.
  intros Ht Hloc Hid. pose proof Ht as (_ & _ & Hl).
  rewrite Hl in Hloc.
  assert (ids = sensorId <$> at_location loc (readings_of calls)) as ->.
  { destruct (at_location loc (readings_of calls)); by simplify_eq. }
  apply list_elem_of_fmap in Hid as (r & -> & Hr).
  unfold at_location in Hr. apply list_elem_of_filter in Hr as [_ Hr].
  destruct (stored_reading calls s r Ht Hr) as (latest & -> & _). eauto.
Qed.

Lemma getSensorsByLocation_tracks calls s out loc :
  tracks calls s →
  getSensorsByLocation loc (mkWorld s out) =
  Some ((λ r, node_of (sensorId r)) <$> at_location loc (readings_of calls),
        mkWorld s out).
Proof.
  intros Ht. rewrite getSensorsByLocation_run. do 2 f_equal.
  pose proof Ht as (_ & _ & Hl).
  destruct (locationIndex s !! loc) as [ids|] eqn:Eloc.
  - rewrite collect_all by eauto using indexed_ids_stored. simpl.
    rewrite Hl in Eloc.
    destruct (at_location loc (readings_of calls)) as [|r rs]; simplify_eq.
    by rewrite <- list_fmap_compose.
  - rewrite Hl in Eloc.
    by destruct (at_location loc (readings_of calls)).
Qed.

(** C1.  After the calls [runTests] makes, four [processNextAlert] calls
    print the alerts in the order 9, 7, 3, 1 and leave the queue empty.
    After any call sequence, [processNextAlert] on a non-empty queue
    prints an alert of the queue whose priority no queued alert exceeds,
    and removes that alert and nothing else. *)
Theorem processNextAlert_highest_priority :
  (∃ w0 w4,
      perform_all runTests_calls start = Some (tt, w0)
      ∧ (processNextAlert ;; processNextAlert ;; processNextAlert ;;
         processNextAlert) w0 = Some (tt, w4)
      ∧ cout w4 = cout w0 +:+
          String.concat ""
            (processing_line <$>
               [ mkAlert 9 "Critical system failure" "CRITICAL";
                 mkAlert 7 "Network connectivity issue" "ERROR";
                 mkAlert 3 "Temperature threshold exceeded" "WARNING";
                 mkAlert 1 "Low battery detected" "INFO" ])
      ∧ alertQueue (this w4) = [])
  ∧ (∀ calls w,
      perform_all calls start = Some (tt, w) → alertQueue (this w) ≠ [] →
      ∃ a w',
        processNextAlert w = Some (tt, w')
        ∧ a ∈ alertQueue (this w)
        ∧ (∀ b, b ∈ alertQueue (this w) → (priority b ≤ priority a)%Z)
        ∧ cout w' = cout w +:+ processing_line a
        ∧ alertQueue (this w) ≡ₚ a :: alertQueue (this w')
        ∧ sensorData (this w') = sensorData (this w)
        ∧ locationIndex (this w') = locationIndex (this w)).
Proof.
  split.
  - eexists _, _. split_and!; vm_compute; reflexivity.
  - intros calls w Hrun Hne.
    destruct (perform_all_tracks calls) as (w1 & Hrun1 & Ht).
    assert (w1 = w) as -> by congruence.
    destruct w as [s out]. simpl in *.
    destruct (alertQueue s) as [|a q] eqn:Eq; [done|].
    pose proof (proj1 Ht) as Hheap. rewrite Eq in Hheap.
    exists a. eexists. split; [by apply processNextAlert_run_top|]. simpl.
    split_and!; auto.
    + by left.
    + intros b Hb. apply list_elem_of_lookup in Hb as [i Hi].
      pose proof (heap_top_max AlertComparator AlertComparator_asym
                    AlertComparator_negtrans (a :: q) a Hheap eq_refl i b Hi) as Hle.
      unfold AlertComparator in Hle. lia.
    + unfold pq_pop.
      destruct (pop_heap_spec AlertComparator AlertComparator_asym
                  AlertComparator_negtrans (a :: q) Hheap) as (_ & _ & ->).
      done.
Qed.

Lemma processNextAlert_highest_priority_witness :
  ∃ w, perform_all (AddAlert <$> runTests_alerts) start = Some (tt, w)
       ∧ alertQueue (this w) ≠ []
       ∧ ∃ a w', processNextAlert w = Some (tt, w')
                 ∧ cout w' = cout w +:+ processing_line a
                 ∧ ∀ b, b ∈ alertQueue (this w) → (priority b ≤ priority a)%Z.
Proof.
  eexists. split; [vm_compute; reflexivity|].
  split; [vm_compute; discriminate|].
  edestruct (proj2 processNextAlert_highest_priority (AddAlert <$> runTests_alerts))
    as (a & w' & Hrun & _ & Hmax & Hout & _).
  { vm_compute. reflexivity. }
  { vm_compute. discriminate. }
  exists a, w'. split_and!; [exact Hrun|exact Hout|exact Hmax].
Defined.

(** C2.  After any call sequence, [findSensorById id] returns [nullptr]
    exactly when no reading with that id was passed to
    [addSensorReading]; otherwise the pointer it returns leads to the
    reading stored for the id, the latest one added.  After the five
    readings of [runTests], id 999 gives [nullptr]. *)
Theorem findSensorById_null_iff_absent :
  (∀ calls id, ∃ w p,
      perform_all calls start = Some (tt, w)
      ∧ findSensorById id w = Some (p, w)
      ∧ (p = nullptr ↔ ∀ r, r ∈ readings_of calls → sensorId r ≠ id)
      ∧ (p ≠ nullptr →
         ∃ r, deref p w = Some (r, w) ∧ sensorId r = id
              ∧ last (with_id id (readings_of calls)) = Some r))
  ∧ (∃ w, perform_all (AddSensorReading <$> runTests_readings) start = Some (tt, w)
          ∧ findSensorById 999 w = Some (nullptr, w)).
Proof.
  split; [|eexists; split; vm_compute; reflexivity].
  intros calls id.
  destruct (perform_all_tracks calls) as ([s out] & Hrun & Ht).
  simpl in Ht. pose proof Ht as (_ & Hd & _).
  eexists _, _. split; [exact Hrun|]. split; [apply findSensorById_run|].
  destruct (sensorData s !! id) as [r|] eqn:Er.
  - rewrite Hd in Er.
    assert (r ∈ with_id id (readings_of calls)) as Hin.
    { apply last_Some in Er as [l ->]. apply elem_of_app. right. by left. }
    unfold with_id in Hin. apply list_elem_of_filter in Hin as [Hid Hr].
    split.
    + split; [done|]. intros Hnone. by destruct (Hnone r Hr).
    + intros _. exists r. split_and!; auto.
      simpl. unfold mbind, M_bind, get_this. simpl.
      rewrite Hd. by rewrite Er.
  - split; [|done]. split; [|done]. intros _ r Hr Hid.
    destruct (stored_reading calls s r Ht Hr) as (latest & Hl & _).
    rewrite Hid in Hl. congruence.
Qed.

(** C3.  After any call sequence in which no reading has location [loc],
    [getSensorsByLocation loc] returns an empty vector; after the five
    readings of [runTests], "Building_Z" gives a vector of size zero. *)
Theorem getSensorsByLocation_unknown_empty :
  (∀ calls loc,
      (∀ r, r ∈ readings_of calls → location r ≠ loc) →
      ∃ w, perform_all calls start = Some (tt, w)
           ∧ getSensorsByLocation loc w = Some ([], w))
  ∧ (∃ w sensors,
        perform_all (AddSensorReading <$> runTests_readings) start = Some (tt, w)
        ∧ getSensorsByLocation "Building_Z" w = Some (sensors, w)
        ∧ length sensors = 0).
Proof.
  split; [|eexists _, _; split_and!; vm_compute; reflexivity].
  intros calls loc Hnone.
  destruct (perform_all_tracks calls) as ([s out] & Hrun & Ht). simpl in Ht.
  eexists. split; [exact Hrun|].
  rewrite (getSensorsByLocation_tracks calls) by done.
  assert (at_location loc (readings_of calls) = []) as ->; [|done].
  apply elem_of_nil_inv. intros r Hr.
  unfold at_location in Hr. apply list_elem_of_filter in Hr as [Hloc Hr].
  by destruct (Hnone r Hr).
Qed.

Lemma getSensorsByLocation_unknown_empty_witness :
  ∃ w, perform_all (AddSensorReading <$> runTests_readings) start = Some (tt, w)
       ∧ getSensorsByLocation "Building_Z" w = Some ([], w).
Proof.
  apply (proj1 getSensorsByLocation_unknown_empty
           (AddSensorReading <$> runTests_readings) "Building_Z").
  intros r Hr. vm_compute in Hr.
  repeat (apply elem_of_cons in Hr as [->|Hr]; [vm_compute; discriminate|]).
  by apply elem_of_nil in Hr.
Defined.

(** C4.  With an empty alert queue, [processNextAlert] writes the line
    "No alerts to process - queue is empty" and returns; the processor
    object is the one it was called on, so the queue, the sensor map and
    the location index are unchanged. *)
Theorem processNextAlert_empty_queue w :
  alertQueue (this w) = [] →
  ∃ w', processNextAlert w = Some (tt, w')
        ∧ cout w' = cout w +:+ "No alerts to process - queue is empty" +:+ endl
        ∧ this w' = this w
        ∧ alertQueue (this w') = alertQueue (this w)
        ∧ sensorData (this w') = sensorData (this w)
        ∧ locationIndex (this w') = locationIndex (this w).
Proof.
  intros Hq. destruct w as [s out]. simpl in Hq.
  eexists. split; [by apply processNextAlert_run_empty|]. by simpl.
Qed.

Lemma processNextAlert_empty_queue_witness :
  ∃ w', processNextAlert start = Some (tt, w')
        ∧ cout w' = "No alerts to process - queue is empty" +:+ endl
        ∧ this w' = new_SensorProcessor.
Proof.
  destruct (processNextAlert_empty_queue start eq_refl)
    as (w' & Hrun & Hout & Hthis & _).
  exists w'. auto.
Defined.

(** C8.  For the solution part of the file (lines 173-409, line 192
    read as the default constructor [SensorReading() {}]): [main] runs
    to completion, returns 0, and what it has written to standard output
    is the text under EXPECTED COMPLETE OUTPUT.  The file as it stands,
    with the starter program and two lines of prose before and inside
    the solution, is rejected by the compiler, so it yields no program
    to run. *)
Theorem main_prints_expected_output :
  ∃ w, main start = Some (0%Z, w) ∧ cout w = expected_output.
Proof. eexists. split; vm_compute; reflexivity. Qed.

(** C10.  After any call sequence: every id in a [locationIndex] entry
    is a key of [sensorData]; [getSensorsByLocation loc] returns one
    pointer per [addSensorReading] call whose reading had location
    [loc], in call order; [sensorData] holds for each id the latest
    reading added with it, and every pointer returned leads to that
    latest reading, so a repeated id gives several pointers to one
    node. *)
Theorem location_index_consistent calls :
  ∃ w,
    perform_all calls start = Some (tt, w)
    ∧ (∀ loc ids id,
         locationIndex (this w) !! loc = Some ids → id ∈ ids →
         is_Some (sensorData (this w) !! id))
    ∧ (∀ loc,
         getSensorsByLocation loc w =
         Some ((λ r, node_of (sensorId r)) <$> at_location loc (readings_of calls), w))
    ∧ (∀ id, sensorData (this w) !! id = last (with_id id (readings_of calls)))
    ∧ (∀ loc r,
         r ∈ at_location loc (readings_of calls) →
         ∃ latest, deref (node_of (sensorId r)) w = Some (latest, w)
                   ∧ last (with_id (sensorId r) (readings_of calls)) = Some latest).
Proof.
  destruct (perform_all_tracks calls) as ([s out] & Hrun & Ht). simpl in Ht.
  eexists. split; [exact Hrun|]. simpl. split_and!.
  - intros loc ids id. by apply (indexed_ids_stored calls).
  - intros loc. by apply getSensorsByLocation_tracks.
  - apply Ht.
  - intros loc r Hr. unfold at_location in Hr.
    apply list_elem_of_filter in Hr as [_ Hr].
    destruct (stored_reading calls s r Ht Hr) as (latest & Hl & Hlast).
    exists latest. split; [|done].
    unfold mbind, M_bind, get_this. simpl. by rewrite Hl.
Qed.

(** Two readings with one id at two locations: both location queries
    return the same pointer, and it leads to the second reading. *)
Example repeated_id_shares_node :
  let first := mkSensorReading 7 "Hall" "temperature" (literal 1 1) in
  let second := mkSensorReading 7 "Roof" "humidity" (literal 2 1) in
  ∃ w, perform_all [AddSensorReading first; AddSensorReading second] start = Some (tt, w)
       ∧ getSensorsByLocation "Hall" w = Some ([node_of 7], w)
       ∧ getSensorsByLocation "Roof" w = Some ([node_of 7], w)
       ∧ deref (node_of 7) w = Some (second, w).
Proof. eexists. split_and!; vm_compute; reflexivity. Qed.

End SensorFacts.

(** ** The transaction pipeline and the chunked transform *)

Module PipelineFacts.
Import IEEE754 Pipeline.

Lemma gt_zero_positive (x : double) : gt x (of_int 0) = true ↔ positive_double x.
Proof.
  destruct x as [[]|[]| |[] m e]; vm_compute; split; try done; intros [].
Qed.

Lemma string_nonempty_length (s : string) : (0 <? String.length s) = true ↔ s ≠ "".
Proof. destruct s; simpl; split; try done. Qed.

Lemma string_empty_spec (s : string) : Ranges.string_empty s = false ↔ s ≠ "".
Proof. destruct s; simpl; split; try done. Qed.

Lemma copy_if_filter {A} (range out : list A) (pred : A → bool) :
  copy_if range out pred = out ++ List.filter pred range.
Proof.
  revert out. induction range as [|x rest IH]; intros out; simpl.
  - by rewrite app_nil_r.
  - rewrite IH. destruct (pred x); [|done]. by rewrite <- app_assoc.
Qed.

Lemma count_if_from_filter {A} (range : list A) (pred : A → bool) (n : Z) :
  count_if_from range pred n = (n + Z.of_nat (length (List.filter pred range)))%Z.
Proof.
  revert n. induction range as [|x rest IH]; intros n; simpl.
  - lia.
  - rewrite IH. destruct (pred x); simpl; lia.
Qed.

Lemma find_if_filter {A} (l : list A) (p : A → bool) :
  List.filter p (Ranges.find_if l p) = List.filter p l.
Proof.
  induction l as [|x rest IH]; simpl; [done|].
  destruct (p x) eqn:E; simpl; [by rewrite E|done].
Qed.

Lemma collect_from_filter {A} (v : Ranges.filter_view A) (l out : list A) :
  Ranges.collect_from v (Ranges.find_if l (Ranges.pred v)) out =
  out ++ List.filter (Ranges.pred v) l.
Proof.
  revert out. induction l as [|x rest IH]; intros out; simpl.
  - simp collect_from. by rewrite app_nil_r.
  - destruct (Ranges.pred v x) eqn:E; [|apply IH].
    simp collect_from. unfold Ranges.view_next. simpl.
    rewrite IH. by rewrite <- app_assoc.
Qed.

Lemma to_vector_filter {A} (v : Ranges.filter_view A) :
  Ranges.to_vector v = List.filter (Ranges.pred v) (Ranges.base v).
Proof.
  unfold Ranges.to_vector, Ranges.view_begin.
  by rewrite collect_from_filter.
Qed.

Lemma IsValidTransaction_same t :
  Ranges.IsValidTransaction t = Traditional.IsValidTransaction t.
Proof.
  unfold Ranges.IsValidTransaction, Traditional.IsValidTransaction,
    Traditional.hasValidAmount, Traditional.hasValidCustomer.
  by destruct (customerId t).
Qed.

(** C5.  [IsValidTransaction], in both files, is true exactly when
    [amount > 0] and [customerId] is not empty; in the first file it is
    [hasValidAmount(t) && hasValidCustomer(t)].  [filterValidTransactions]
    leaves in [validTransactions] the raw transactions that satisfy it,
    in their order, and reports as invalid the number that fail it. *)
Theorem filterValidTransactions_keeps_valid :
  (∀ t, Traditional.IsValidTransaction t = true ↔
        gt (amount t) (of_int 0) = true ∧ customerId t ≠ "")
  ∧ (∀ t, Traditional.IsValidTransaction t =
          Traditional.hasValidAmount t && Traditional.hasValidCustomer t)
  ∧ (∀ t, Ranges.IsValidTransaction t = true ↔
          gt (amount t) (of_int 0) = true ∧ customerId t ≠ "")
  ∧ (∀ x, gt x (of_int 0) = true ↔ positive_double x)
  ∧ (∀ p,
       let valid := List.filter Traditional.IsValidTransaction (rawTransactions p) in
       let invalid :=
         List.filter (λ t, negb (Traditional.IsValidTransaction t)) (rawTransactions p) in
       Traditional.filterValidTransactions p =
       (mkAlgorithmPipeline (rawTransactions p) valid,
        ("Original transactions: " +:+ pretty (length (rawTransactions p)) +:+ endl) +:+
        ("Valid transactions: " +:+ pretty (length valid) +:+ endl +:+
         "Invalid transactions: " +:+ pretty (Z.of_nat (length invalid)) +:+ endl))).
Proof.
  split_and!.
  - intros t. unfold Traditional.IsValidTransaction, Traditional.hasValidAmount,
      Traditional.hasValidCustomer.
    rewrite andb_true_iff. by rewrite string_nonempty_length.
  - done.
  - intros t. rewrite IsValidTransaction_same.
    unfold Traditional.IsValidTransaction, Traditional.hasValidAmount,
      Traditional.hasValidCustomer.
    rewrite andb_true_iff. by rewrite string_nonempty_length.
  - apply gt_zero_positive.
  - intros p. unfold Traditional.filterValidTransactions, statistics, count_if. simpl.
    rewrite copy_if_filter, count_if_from_filter. simpl. done.
Qed.

(** The constants of the file are the doubles nearest to 0.08, 1000 and
    0.10: the distance to the decimal value is at most half a unit in
    the last place. *)
Example constants_nearest :
  TAX_RATE = S754_finite false 5764607523034235 (-56)
  ∧ (2 * Z.abs (100 * 5764607523034235 - 8 * 2 ^ 56) ≤ 100)%Z
  ∧ DISCOUNT_THRESHOLD = S754_finite false 8796093022208000 (-43)
  ∧ (8796093022208000 = 1000 * 2 ^ 43)%Z
  ∧ DISCOUNT_RATE = S754_finite false 7205759403792794 (-56)
  ∧ (2 * Z.abs (100 * 7205759403792794 - 10 * 2 ^ 56) ≤ 100)%Z.
Proof. split_and!; vm_compute; congruence. Qed.

(** C6.  The fields of [CalculateDerivedValues(t)], in [double]
    arithmetic, with the numbers written out.  [rate_008], [threshold]
    and [rate_010] are the doubles the compiler reads the literals
    [0.08], [1000.0] and [0.10] as: each is a binary64 number with a
    53-bit significand, [threshold] is 1000 exactly, and the two rates
    are within half a unit in the last place of 8/100 and 10/100.
    [taxAmount] is [amount * 0.08]; [discount] is [amount * 0.10] when
    [amount > 1000.0] and [+0.0] otherwise; [finalTotal] is
    [amount + taxAmount - discount]; the other four fields are those of
    [t].  On the amounts 2000, 1000 and 250 that gives tax 160, 80 and
    20, discount 200, 0 and 0, and totals 1960, 1080 and 270. *)
Theorem CalculateDerivedValues_fields (t : Transaction) :
  let rate_008 := S754_finite false 5764607523034235 (-56) in
  let threshold := S754_finite false 8796093022208000 (-43) in
  let rate_010 := S754_finite false 7205759403792794 (-56) in
  let t' := CalculateDerivedValues t in
  ((2 ^ 52 ≤ 5764607523034235 < 2 ^ 53)%Z
   ∧ (2 * Z.abs (100 * 5764607523034235 - 8 * 2 ^ 56) ≤ 100)%Z)
  ∧ ((2 ^ 52 ≤ 8796093022208000 < 2 ^ 53)%Z
     ∧ (8796093022208000 = 1000 * 2 ^ 43)%Z)
  ∧ ((2 ^ 52 ≤ 7205759403792794 < 2 ^ 53)%Z
     ∧ (2 * Z.abs (100 * 7205759403792794 - 10 * 2 ^ 56) ≤ 100)%Z)
  ∧ taxAmount t' = SFmul 53 1024 (amount t) rate_008
  ∧ discount t' = (if SFltb threshold (amount t)
                   then SFmul 53 1024 (amount t) rate_010 else S754_zero false)
  ∧ finalTotal t' =
      SFsub 53 1024 (SFadd 53 1024 (amount t) (taxAmount t')) (discount t')
  ∧ id t' = id t
  ∧ customerId t' = customerId t
  ∧ amount t' = amount t
  ∧ region t' = region t
  ∧ (let big := CalculateDerivedValues
                  (new_Transaction 1 "CUST_1" (of_int 2000) "North") in
     print_double (taxAmount big) = "160"
     ∧ print_double (discount big) = "200"
     ∧ print_double (finalTotal big) = "1960")
  ∧ (let edge := CalculateDerivedValues
                   (new_Transaction 2 "CUST_2" (of_int 1000) "South") in
     print_double (taxAmount edge) = "80"
     ∧ print_double (discount edge) = "0"
     ∧ print_double (finalTotal edge) = "1080")
  ∧ (let small := CalculateDerivedValues
                    (new_Transaction 3 "CUST_3" (of_int 250) "East") in
     print_double (taxAmount small) = "20"
     ∧ print_double (discount small) = "0"
     ∧ print_double (finalTotal small) = "270").
Proof.
  cbv zeta. split_and!; try reflexivity; try (vm_compute; congruence).
Qed.

(** An amount above the threshold and one below it. *)
Example CalculateDerivedValues_2000 :
  CalculateDerivedValues (new_Transaction 1 "CUST_1" (of_int 2000) "North") =
  mkTransaction 1 "CUST_1" (of_int 2000) "North"
    (of_int 160) (of_int 200) (of_int 1960).
Proof. vm_compute. reflexivity. Qed.

Example CalculateDerivedValues_250 :
  CalculateDerivedValues (new_Transaction 2 "CUST_2" (of_int 250) "East") =
  mkTransaction 2 "CUST_2" (of_int 250) "East"
    (of_int 20) (of_int 0) (of_int 270).
Proof. vm_compute. reflexivity. Qed.

(** C7.  The view-based [filterValidTransactions] leaves the same object
    and writes the same text as the [copy_if]-based one; in particular
    the two [validTransactions] vectors are equal. *)
Theorem ranges_filter_equals_copy_if (p : AlgorithmPipeline) :
  Ranges.filterValidTransactions p = Traditional.filterValidTransactions p
  ∧ validTransactions (fst (Ranges.filterValidTransactions p)) =
    validTransactions (fst (Traditional.filterValidTransactions p))
  ∧ Ranges.to_vector (Ranges.mk_filter_view (rawTransactions p) Ranges.IsValidTransaction) =
    copy_if (rawTransactions p) [] Traditional.IsValidTransaction.
Proof.
  assert (Ranges.to_vector
            (Ranges.mk_filter_view (rawTransactions p) Ranges.IsValidTransaction) =
          copy_if (rawTransactions p) [] Traditional.IsValidTransaction) as Hsame.
  { rewrite to_vector_filter, copy_if_filter. simpl.
    apply filter_ext. intros t. apply IsValidTransaction_same. }
  assert (Ranges.filterValidTransactions p = Traditional.filterValidTransactions p) as Heq.
  { unfold Ranges.filterValidTransactions, Traditional.filterValidTransactions,
      statistics, count_if. simpl.
    rewrite Hsame. rewrite !count_if_from_filter.
    rewrite (filter_ext (λ t, negb (Ranges.IsValidTransaction t))
               (λ t, negb (Traditional.IsValidTransaction t)));
      [done|]. intros t. by rewrite IsValidTransaction_same. }
  split_and!; [done|by rewrite Heq|done].
Qed.

End PipelineFacts.

Module CustomAlgorithmFacts.
Import CustomAlgorithms.

Section Stateless.
Context {A B Op Out : Type} (call : Op → A → B * Op) (assign : Out → B → Out).
Hypothesis call_stateless : ∀ op op' x, fst (call op x) = fst (call op' x).

Lemma std_transform_stateless (range : list A) (d : Out) (op op0 : Op) :
  std_transform call assign range d op =
  fold_left (λ d x, assign d (fst (call op0 x))) range d.
Proof.
  revert d op. induction range as [|x rest IH]; intros d op; simpl; [done|].
  destruct (call op x) as [y op'] eqn:E.
  rewrite IH. do 2 f_equal.
  by rewrite <- (call_stateless op op0), E.
Qed.

Lemma chunks_stateless (distance : nat) (current : list A) (output : Out) (op : Op) :
  chunks call assign distance current output op =
  std_transform call assign current output op.
Proof.
  funelim (chunks call assign distance current output op); [done|].
  match goal with
  | IH : _ = std_transform _ _ (drop _ _) _ _ |- _ => rewrite IH
  end.
  rewrite !(std_transform_stateless _ _ _ op).
  rewrite <- fold_left_app. by rewrite take_drop.
Qed.
End Stateless.

(** C9, as the code has it.  For a range that can be gone over more
    than once (forward iterators or stronger, like the vector iterators
    of the two calls in the file; the range is then the list [range])
    and an [op] whose result depends only on its argument:
    [transform_parallel_sim] leaves the output, and the output
    iterator, exactly as [std::transform] does.  Both conditions are
    needed: an [op] with state gives other values, and for a
    single-pass input iterator [std::distance] at line 77 uses up the
    range before the loop starts. *)
Theorem transform_parallel_sim_stateless
    {A B Op Out : Type} (call : Op → A → B * Op) (assign : Out → B → Out) :
  (∀ op op' x, fst (call op x) = fst (call op' x)) →
  ∀ (range : list A) (d_first : Out) (op : Op),
    transform_parallel_sim call assign range d_first op =
    std_transform call assign range d_first op.
Proof.
  intros Hcall range d_first op. unfold transform_parallel_sim.
  by apply chunks_stateless.
Qed.

Lemma transform_parallel_sim_stateless_witness :
  transform_parallel_sim (stateless (Z.mul 11)) vector_assign
    [1; 2; 3; 4; 5; 6; 7; 8; 9; 10]%Z (repeat 0%Z 10, 0) tt =
  ([11; 22; 33; 44; 55; 66; 77; 88; 99; 110]%Z, 10).
Proof.
  rewrite (transform_parallel_sim_stateless (stateless (Z.mul 11)) vector_assign).
  - vm_compute. reflexivity.
  - intros op op' x. reflexivity.
Defined.

(** C9, as stated, fails for a function object that carries state: each
    chunk is transformed by a fresh copy of the caller's [op].  With
    eight elements the chunks have two elements each. *)
Lemma transform_parallel_sim_counter_differs :
  transform_parallel_sim counter vector_assign
    [10; 20; 30; 40; 50; 60; 70; 80]%Z (repeat 0%Z 8, 0) 0%Z
    = ([0; 1; 0; 1; 0; 1; 0; 1]%Z, 8)
  ∧ std_transform counter vector_assign
    [10; 20; 30; 40; 50; 60; 70; 80]%Z (repeat 0%Z 8, 0) 0%Z
    = ([0; 1; 2; 3; 4; 5; 6; 7]%Z, 8)
  ∧ transform_parallel_sim counter vector_assign
      [10; 20; 30; 40; 50; 60; 70; 80]%Z (repeat 0%Z 8, 0) 0%Z
    ≠ std_transform counter vector_assign
      [10; 20; 30; 40; 50; 60; 70; 80]%Z (repeat 0%Z 8, 0) 0%Z.
Proof. split_and!; vm_compute; [reflexivity|reflexivity|discriminate]. Qed.

End CustomAlgorithmFacts.

(** ** Order on doubles and on strings *)

Module DoubleOrderFacts.
Import IEEE754 IEEE754Ops PipelineStages.

(** [print_fixed] on some values, as [printf("%.2f")] writes them. *)
Example print_fixed_formats :
  print_fixed 2 <$>
    [ literal 125 1000; literal 375 1000; literal 2675 1000; of_int 0;
      literal (-1) 1000; literal 123456789 100; literal 999 1000;
      literal 1 3; of_int (-7) ]
  = [ "0.12"; "0.38"; "2.67"; "0.00"; "-0.00"; "1234567.89"; "1.00";
      "0.33"; "-7.00" ].
Proof. vm_compute. reflexivity. Qed.


Lemma SFcompare_Lt_trans (x y z : spec_float) :
  SFcompare x y = Some Lt → SFcompare y z = Some Lt → SFcompare x z = Some Lt.
Proof.
  destruct x as [sx|sx| |sx mx ex], y as [sy|sy| |sy my ey],
           z as [sz|sz| |sz mz ez]; simpl;
    try destruct sx; try destruct sy; try destruct sz; simpl; try done.
  all: rewrite ?Pos.compare_cont_spec; simpl.
  all: destruct (Z.compare_spec ex ey); destruct (Z.compare_spec ey ez);
       destruct (Z.compare_spec ex ez); try lia; simpl; try done; subst.
  all: destruct (Pos.compare_spec mx my); destruct (Pos.compare_spec my mz);
       destruct (Pos.compare_spec mx mz); simpl; try done; try lia.
Qed.

Lemma gt_irrefl (x : double) : gt x x = false.
Proof.
  unfold gt, SFltb.
  destruct x as [s|s| |s m e]; simpl; try done; destruct s; simpl;
    rewrite ?Z.compare_refl, ?Pos.compare_cont_spec, ?Pos.compare_refl; done.
Qed.

Lemma gt_trans (x y z : double) : gt x y = true → gt y z = true → gt x z = true.
Proof.
  unfold gt, SFltb. intros Hxy Hyz.
  destruct (SFcompare y x) as [[]|] eqn:E1; try done.
  destruct (SFcompare z y) as [[]|] eqn:E2; try done.
  by rewrite (SFcompare_Lt_trans z y x E2 E1).
Qed.

Lemma gt_asym (x y : double) : gt x y = true → gt y x = false.
Proof.
  intros Hxy. destruct (gt y x) eqn:E; [|done].
  pose proof (gt_trans x y x Hxy E) as Hxx. by rewrite gt_irrefl in Hxx.
Qed.

Lemma lt_trans (x y z : double) : lt x y = true → lt y z = true → lt x z = true.
Proof. unfold lt. intros Hxy Hyz. exact (gt_trans z y x Hyz Hxy). Qed.

Lemma eqb_refl_iff (x : double) : eqb x x = true ↔ x ≠ S754_nan.
Proof.
  unfold eqb, SFeqb.
  destruct x as [s|s| |s m e]; simpl; try destruct s; simpl;
    rewrite ?Z.compare_refl, ?Pos.compare_cont_spec, ?Pos.compare_refl; simpl;
    split; try done.
Qed.

Lemma ascii_compare_Lt_trans (a b c : ascii) :
  Ascii.compare a b = Lt → Ascii.compare b c = Lt → Ascii.compare a c = Lt.
Proof.
  unfold Ascii.compare. rewrite !N.compare_lt_iff. lia.
Qed.

Lemma string_compare_Lt_trans (a b c : string) :
  String.compare a b = Lt → String.compare b c = Lt → String.compare a c = Lt.
Proof.
  revert b c. induction a as [|x a IH]; intros [|y b] [|z c]; simpl; try done.
  destruct (Ascii.compare x y) eqn:Exy; try done;
    destruct (Ascii.compare y z) eqn:Eyz; try done.
  - apply Ascii.compare_eq_iff in Exy, Eyz. subst.
    replace (Ascii.compare z z) with Eq; [apply IH|].
    symmetry. unfold Ascii.compare. apply N.compare_refl.
  - apply Ascii.compare_eq_iff in Exy. subst. by rewrite Eyz.
  - apply Ascii.compare_eq_iff in Eyz. subst. by rewrite Exy.
  - by rewrite (ascii_compare_Lt_trans x y z).
Qed.

Lemma string_compare_refl (a : string) : String.compare a a = Eq.
Proof.
  induction a as [|x a IH]; simpl; [done|].
  unfold Ascii.compare. by rewrite N.compare_refl.
Qed.

Lemma string_gt_irrefl a : string_gt a a = false.
Proof. unfold string_gt, String.ltb. by rewrite string_compare_refl. Qed.

Lemma string_gt_trans a b c :
  string_gt a b = true → string_gt b c = true → string_gt a c = true.
Proof.
  unfold string_gt, String.ltb. intros Hab Hbc.
  destruct (String.compare b a) eqn:E1; try done.
  destruct (String.compare c b) eqn:E2; try done.
  by rewrite (string_compare_Lt_trans c b a).
Qed.

Lemma string_gt_asym a b : string_gt a b = true → string_gt b a = false.
Proof.
  intros Hab. destruct (string_gt b a) eqn:E; [|done].
  pose proof (string_gt_trans a b a Hab E) as H. by rewrite string_gt_irrefl in H.
Qed.

Lemma string_gt_neq a b : string_gt a b = true → a ≠ b.
Proof. intros H ->. by rewrite string_gt_irrefl in H. Qed.
End DoubleOrderFacts.

(** ** Clients of the sensor processor *)

Module SensorClientFacts.
Import IEEE754 StdHeap StdHeapFacts Sensors SensorFacts.

Lemma string_app_assoc (a b c : string) : (a +:+ b) +:+ c = a +:+ (b +:+ c).
Proof.
  induction a as [|x a IH]; [done|].
  change (String x ((a +:+ b) +:+ c) = String x (a +:+ (b +:+ c))).
  by f_equal.
Qed.

Lemma string_app_empty_r (a : string) : a +:+ "" = a.
Proof.
  induction a as [|x a IH]; [done|].
  change (String x (a +:+ "") = String x a). by f_equal.
Qed.

(** Draining a heap: as many [processNextAlert] calls as there are
    queued alerts. *)
Lemma drain_heap (n : nat) :
  ∀ s out,
    is_heap AlertComparator (alertQueue s) (length (alertQueue s)) →
    length (alertQueue s) = n →
    ∃ order,
      perform_all (replicate n ProcessNextAlert) (mkWorld s out) =
        Some (tt, mkWorld
          {| sensorData := sensorData s; locationIndex := locationIndex s;
             alertQueue := [] |}
          (out +:+ fold_right String.append "" (processing_line <$> order)))
      ∧ order ≡ₚ alertQueue s
      ∧ StronglySorted (λ a b, (priority b ≤ priority a)%Z) order.
Proof.
  induction n as [|n IH]; intros s out Hheap Hlen.
  - exists []. destruct s as [d l q]. simpl in *.
    destruct q; [|done]. simpl. rewrite string_app_empty_r.
    split_and!; [done|done|constructor].
  - destruct (alertQueue s) as [|a q] eqn:Eq; [done|].
    destruct (pop_heap_spec AlertComparator AlertComparator_asym
                AlertComparator_negtrans (a :: q) Hheap) as (Hh' & Hl' & Hp').
    simpl in Hl', Hp', Hh', Hlen. rewrite Nat.sub_0_r in Hl', Hh'.
    set (s' := {| sensorData := sensorData s; locationIndex := locationIndex s;
                  alertQueue := pq_pop AlertComparator (a :: q) |}).
    destruct (IH s' (out +:+ processing_line a)) as (order & Hrun & Hperm & Hsorted).
    { simpl. unfold pq_pop. by rewrite Hl'. }
    { simpl. unfold pq_pop. rewrite Hl'. lia. }
    exists (a :: order). split_and!.
    + simpl. unfold perform_all in *. simpl.
      unfold mbind, M_bind. rewrite (processNextAlert_run_top s out a q Eq).
      fold s'. rewrite Hrun. simpl. by rewrite string_app_assoc.
    + subst s'. simpl in Hperm. unfold pq_pop in Hperm. by rewrite Hperm, Hp'.
    + constructor; [done|].
      apply Forall_forall. intros b Hb.
      assert (b ∈ a :: q) as Hin.
      { right. rewrite <- Hp'. subst s'. simpl in Hperm. unfold pq_pop in Hperm.
        by rewrite <- Hperm. }
      apply list_elem_of_lookup in Hin as [i Hi].
      pose proof (heap_top_max AlertComparator AlertComparator_asym
                    AlertComparator_negtrans (a :: q) a Hheap eq_refl i b Hi) as Hle.
      unfold AlertComparator in Hle. lia.
Qed.

(** X1.  After any call sequence, as many [processNextAlert] calls as
    there are queued alerts print every queued alert once, in
    non-increasing priority, and leave the queue empty and the sensor
    containers untouched. *)
Theorem drain_prints_descending calls w :
  perform_all calls start = Some (tt, w) →
  ∃ order w',
    perform_all (replicate (length (alertQueue (this w))) ProcessNextAlert) w =
      Some (tt, w')
    ∧ cout w' = cout w +:+ fold_right String.append "" (processing_line <$> order)
    ∧ order ≡ₚ alertQueue (this w)
    ∧ StronglySorted (λ a b, (priority b ≤ priority a)%Z) order
    ∧ alertQueue (this w') = []
    ∧ sensorData (this w') = sensorData (this w)
    ∧ locationIndex (this w') = locationIndex (this w).
Proof.
  intros Hrun.
  destruct (perform_all_tracks calls) as (w1 & Hrun1 & Ht).
  assert (w1 = w) as -> by congruence.
  destruct w as [s out]. simpl in *.
  destruct (drain_heap (length (alertQueue s)) s out (proj1 Ht) eq_refl)
    as (order & Hdrain & Hperm & Hsorted).
  exists order. eexists. split; [exact Hdrain|]. by simpl.
Qed.

Lemma drain_prints_descending_witness :
  ∃ w order w',
    perform_all (AddAlert <$> runTests_alerts) start = Some (tt, w)
    ∧ perform_all (replicate (length (alertQueue (this w))) ProcessNextAlert) w =
        Some (tt, w')
    ∧ order ≡ₚ alertQueue (this w)
    ∧ StronglySorted (λ a b, (priority b ≤ priority a)%Z) order.
Proof.
  eexists. 
  edestruct (drain_prints_descending (AddAlert <$> runTests_alerts))
    as (order & w' & Hrun & _ & Hperm & Hsorted & _).
  { vm_compute. reflexivity. }
  exists order, w'. split_and!; [vm_compute; reflexivity|exact Hrun|exact Hperm|exact Hsorted].
Defined.

(** X2.  After any call sequence, [addAlert] adds exactly the new alert:
    the queue afterwards is the old queue and the alert, up to order. *)
Theorem addAlert_keeps_alerts calls a w :
  perform_all calls start = Some (tt, w) →
  ∃ w', addAlert a w = Some (tt, w')
        ∧ alertQueue (this w') ≡ₚ a :: alertQueue (this w)
        ∧ length (alertQueue (this w')) = S (length (alertQueue (this w)))
        ∧ sensorData (this w') = sensorData (this w)
        ∧ locationIndex (this w') = locationIndex (this w).
Proof.
  intros Hrun.
  destruct (perform_all_tracks calls) as (w1 & Hrun1 & Ht).
  assert (w1 = w) as -> by congruence.
  destruct w as [s out]. simpl in *.
  rewrite addAlert_run. eexists. split; [reflexivity|]. simpl.
  destruct (push_heap_spec AlertComparator AlertComparator_asym
              AlertComparator_negtrans (alertQueue s) a (proj1 Ht))
    as (_ & Hlen & Hperm).
  unfold pq_push. by rewrite Hlen, Hperm.
Qed.

Lemma addAlert_keeps_alerts_witness :
  ∃ w w', perform_all (AddAlert <$> runTests_alerts) start = Some (tt, w)
          ∧ addAlert (mkAlert 5 "Door open" "INFO") w = Some (tt, w')
          ∧ length (alertQueue (this w')) = S (length (alertQueue (this w))).
Proof.
  eexists.
  edestruct (addAlert_keeps_alerts (AddAlert <$> runTests_alerts)
               (mkAlert 5 "Door open" "INFO")) as (w' & Hrun & _ & Hlen & _).
  { vm_compute. reflexivity. }
  exists w'. split_and!; [vm_compute; reflexivity|exact Hrun|exact Hlen].
Defined.

(** X3.  In any state, [findSensorById] right after [addSensorReading]
    returns a pointer to the reading just added; lookups of every other
    id answer as before, and the alert queue is not touched. *)
Theorem addSensorReading_then_find (w : World) (r : SensorReading) :
  ∃ w',
    addSensorReading r w = Some (tt, w')
    ∧ findSensorById (sensorId r) w' = Some (node_of (sensorId r), w')
    ∧ deref (node_of (sensorId r)) w' = Some (r, w')
    ∧ (∀ id, id ≠ sensorId r →
         fst <$> findSensorById id w' = fst <$> findSensorById id w
         ∧ fst <$> deref (node_of id) w' = fst <$> deref (node_of id) w)
    ∧ alertQueue (this w') = alertQueue (this w).
Proof.
  destruct w as [s out]. rewrite addSensorReading_run.
  eexists. split; [reflexivity|]. split_and!.
  - rewrite findSensorById_run. simpl. by rewrite lookup_insert_eq.
  - simpl. unfold mbind, M_bind, get_this. simpl. by rewrite lookup_insert_eq.
  - intros id Hne. rewrite !findSensorById_run. simpl.
    unfold mbind, M_bind, get_this. simpl.
    rewrite lookup_insert_ne by done.
    split; [done|]. by destruct (sensorData s !! id).
  - done.
Qed.

(** X4.  [addSensorReading] never removes an id from [locationIndex]:
    when an id is added again at another location, the query for the
    old location still returns its node, which now holds the new
    reading. *)
Theorem moved_sensor_stays_indexed calls (r r' : SensorReading) :
  sensorId r = sensorId r' → location r ≠ location r' →
  ∃ w sensors,
    perform_all (calls ++ [AddSensorReading r; AddSensorReading r']) start = Some (tt, w)
    ∧ getSensorsByLocation (location r) w = Some (sensors, w)
    ∧ node_of (sensorId r) ∈ sensors
    ∧ deref (node_of (sensorId r)) w = Some (r', w).
Proof.
  intros Hid Hloc.
  destruct (perform_all_tracks (calls ++ [AddSensorReading r; AddSensorReading r']))
    as ([s out] & Hrun & Ht). simpl in Ht.
  eexists _, _. split; [exact Hrun|].
  split; [by apply (getSensorsByLocation_tracks
                      (calls ++ [AddSensorReading r; AddSensorReading r']) s out)|].
  assert (readings_of (calls ++ [AddSensorReading r; AddSensorReading r']) =
          readings_of calls ++ [r; r']) as Hrs.
  { unfold readings_of. by rewrite omap_app. }
  split.
  - apply list_elem_of_fmap. exists r. split; [done|].
    unfold at_location. apply list_elem_of_filter. split; [done|].
    rewrite Hrs. apply elem_of_app. right. by left.
  - simpl. unfold mbind, M_bind, get_this. simpl.
    destruct Ht as (_ & Hd & _). rewrite Hd, Hrs.
    unfold with_id. rewrite filter_app.
    rewrite (filter_cons _ r), (filter_cons _ r'), filter_nil.
    rewrite decide_True by done. rewrite decide_True by done.
    replace (filter _ (readings_of calls) ++ [r; r'])
      with ((filter (λ r0 : SensorReading, sensorId r0 = sensorId r)
               (readings_of calls) ++ [r]) ++ [r'])
      by (by rewrite <- app_assoc).
    by rewrite last_snoc.
Qed.

Lemma moved_sensor_stays_indexed_witness :
  ∃ w sensors,
    perform_all ([] ++ [AddSensorReading (mkSensorReading 7 "Hall" "temperature" (literal 1 1));
                        AddSensorReading (mkSensorReading 7 "Roof" "humidity" (literal 2 1))])
      start = Some (tt, w)
    ∧ getSensorsByLocation "Hall" w = Some (sensors, w)
    ∧ node_of 7 ∈ sensors
    ∧ deref (node_of 7) w =
      Some (mkSensorReading 7 "Roof" "humidity" (literal 2 1), w).
Proof.
  apply (moved_sensor_stays_indexed []
           (mkSensorReading 7 "Hall" "temperature" (literal 1 1))
           (mkSensorReading 7 "Roof" "humidity" (literal 2 1))).
  - reflexivity.
  - simpl. discriminate.
Defined.

End SensorClientFacts.

(** ** The pipeline stages *)

Module PipelineStagesFacts.
Import IEEE754 IEEE754Ops Pipeline PipelineStages PipelineFacts DoubleOrderFacts.

Lemma filter_partition_length {A} (f : A → bool) (l : list A) :
  length (List.filter f l) + length (List.filter (λ x, negb (f x)) l) = length l.
Proof.
  induction l as [|x l IH]; simpl; [done|].
  destruct (f x); simpl; lia.
Qed.

(** X5.  The three numbers [filterValidTransactions] prints add up: the
    valid count, which is the size of [validTransactions], plus the
    invalid count is the number of raw transactions; both files print
    the same text. *)
Theorem filter_counts_add_up (p : AlgorithmPipeline) :
  ∃ valid invalid : nat,
    snd (Traditional.filterValidTransactions p) =
      ("Original transactions: " +:+ pretty (length (rawTransactions p)) +:+ endl) +:+
      ("Valid transactions: " +:+ pretty valid +:+ endl +:+
       "Invalid transactions: " +:+ pretty (Z.of_nat invalid) +:+ endl)
    ∧ snd (Ranges.filterValidTransactions p) = snd (Traditional.filterValidTransactions p)
    ∧ length (validTransactions (fst (Traditional.filterValidTransactions p))) = valid
    ∧ valid + invalid = length (rawTransactions p).
Proof.
  exists (length (List.filter Traditional.IsValidTransaction (rawTransactions p))),
         (length (List.filter (λ t, negb (Traditional.IsValidTransaction t))
                    (rawTransactions p))).
  unfold Traditional.filterValidTransactions, Ranges.filterValidTransactions,
    statistics, count_if. simpl.
  rewrite to_vector_filter, copy_if_filter, !count_if_from_filter. simpl.
  rewrite (filter_ext Ranges.IsValidTransaction Traditional.IsValidTransaction)
    by apply IsValidTransaction_same.
  rewrite (filter_ext (λ t, negb (Ranges.IsValidTransaction t))
             (λ t, negb (Traditional.IsValidTransaction t)))
    by (intros t; by rewrite IsValidTransaction_same).
  split_and!; try done. apply filter_partition_length.
Qed.

(** [filterValidTransactions] clears [validTransactions] first: what
    was there before has no influence. *)
Lemma filter_discards_previous_result (raw old1 old2 : list Transaction) :
  Traditional.filterValidTransactions (mkAlgorithmPipeline raw old1) =
  Traditional.filterValidTransactions (mkAlgorithmPipeline raw old2)
  ∧ Ranges.filterValidTransactions (mkAlgorithmPipeline raw old1) =
    Ranges.filterValidTransactions (mkAlgorithmPipeline raw old2)
  ∧ Traditional.filterValidTransactions
      (fst (Traditional.filterValidTransactions (mkAlgorithmPipeline raw old1))) =
    Traditional.filterValidTransactions (mkAlgorithmPipeline raw old1).
Proof. by split_and!. Qed.

Lemma transform_in_place_map {A} (op : A → A) (written todo : list A) :
  transform_in_place op (length todo) (length written) (written ++ todo) =
  written ++ (op <$> todo).
Proof.
  revert written. induction todo as [|x todo IH]; intros written; simpl.
  { by rewrite app_nil_r. }
  rewrite lookup_app_r by lia. rewrite Nat.sub_diag. simpl.
  rewrite insert_app_r_alt by lia. rewrite Nat.sub_diag. simpl.
  replace (written ++ op x :: todo) with ((written ++ [op x]) ++ todo)
    by (by rewrite <- app_assoc).
  replace (S (length written)) with (length (written ++ [op x]))
    by (rewrite length_app; simpl; lia).
  rewrite IH. by rewrite <- app_assoc.
Qed.

Lemma calculateDerivedValues_valid (p : AlgorithmPipeline) :
  fst (calculateDerivedValues p) =
  mkAlgorithmPipeline (rawTransactions p)
    (CalculateDerivedValues <$> validTransactions p).
Proof.
  unfold calculateDerivedValues. simpl. f_equal.
  apply (transform_in_place_map CalculateDerivedValues []).
Qed.

(** X8.  [calculateDerivedValues], a [std::transform] of the vector onto
    itself, replaces each valid transaction by its
    [CalculateDerivedValues]; the raw vector, the length and the amounts
    stay, and a second run changes nothing. *)
Theorem calculateDerivedValues_maps (p : AlgorithmPipeline) :
  let p1 := fst (calculateDerivedValues p) in
  validTransactions p1 = CalculateDerivedValues <$> validTransactions p
  ∧ rawTransactions p1 = rawTransactions p
  ∧ length (validTransactions p1) = length (validTransactions p)
  ∧ amount <$> validTransactions p1 = amount <$> validTransactions p
  ∧ fst (calculateDerivedValues p1) = p1.
Proof.
  cbv zeta. rewrite !calculateDerivedValues_valid. simpl. split_and!.
  - done.
  - done.
  - by rewrite length_fmap.
  - by rewrite <- list_fmap_compose.
  - f_equal. by rewrite <- list_fmap_compose.
Qed.

Lemma totalRevenue_amounts (v w : list Transaction) :
  amount <$> v = amount <$> w → totalRevenue v = totalRevenue w.
Proof.
  unfold totalRevenue. generalize (of_int 0).
  revert w. induction v as [|x v IH]; intros [|y w] acc Heq; simplify_eq/=; [done|].
  rewrite H. by apply IH.
Qed.

(** The sample line for one transaction of 2000. *)
Example calculateDerivedValues_sample :
  snd (calculateDerivedValues
         (mkAlgorithmPipeline [] [new_Transaction 4 "CUST_7" (of_int 2000) "North"]))
  = "Calculated derived values for 1 transactions" +:+ endl +:+
    "Sample: Amount $2000.00 -> Final $1960.00" +:+ endl.
Proof. vm_compute. reflexivity. Qed.


(** X10.  The revenue figures of [generateStatistics] are sums of
    [amount]: running [calculateDerivedValues] first changes neither the
    total nor the average, so the two reports differ at most in the
    high-value count. *)
Theorem revenue_ignores_derived_fields (p : AlgorithmPipeline) :
  let p1 := fst (calculateDerivedValues p) in
  totalRevenue (validTransactions p1) = totalRevenue (validTransactions p)
  ∧ average (validTransactions p1) = average (validTransactions p)
  ∧ ∃ total avg : string, ∃ high high1 : Z,
      generateStatistics p =
        (endl +:+ "=== Transaction Statistics ===" +:+ endl) +:+
        ("Total Revenue: $" +:+ total +:+ endl) +:+
        ("Average Transaction: $" +:+ avg +:+ endl) +:+
        ("High-Value Transactions (>$500): " +:+ pretty high +:+ endl)
      ∧ generateStatistics p1 =
        (endl +:+ "=== Transaction Statistics ===" +:+ endl) +:+
        ("Total Revenue: $" +:+ total +:+ endl) +:+
        ("Average Transaction: $" +:+ avg +:+ endl) +:+
        ("High-Value Transactions (>$500): " +:+ pretty high1 +:+ endl).
Proof.
  cbv zeta. rewrite calculateDerivedValues_valid.
  cbn [validTransactions].
  assert (totalRevenue (CalculateDerivedValues <$> validTransactions p) =
          totalRevenue (validTransactions p)) as Htotal.
  { apply totalRevenue_amounts. by rewrite <- list_fmap_compose. }
  assert (average (CalculateDerivedValues <$> validTransactions p) =
          average (validTransactions p)) as Havg.
  { unfold average. by rewrite length_fmap, Htotal. }
  split_and!; [done|done|].
  eexists _, _, _, _. unfold generateStatistics. cbn [validTransactions].
  rewrite Htotal, Havg. split; reflexivity.
Qed.



(** X11.  [compareByFinalTotal], the comparator handed to [std::sort]
    and [std::partial_sort], is irreflexive, asymmetric and transitive
    on all doubles, NaN included. *)
Theorem compareByFinalTotal_strict_order :
  (∀ a, compareByFinalTotal a a = false)
  ∧ (∀ a b, compareByFinalTotal a b = true → compareByFinalTotal b a = false)
  ∧ (∀ a b c, compareByFinalTotal a b = true → compareByFinalTotal b c = true →
              compareByFinalTotal a c = true).
Proof.
  unfold compareByFinalTotal. split_and!.
  - intros a. apply gt_irrefl.
  - intros a b. apply gt_asym.
  - intros a b c. apply gt_trans.
Qed.

(** X12.  [compareByRegionThenAmount], the comparator of the second sort
    in [sortAndRank], is a strict order as well: by region, and by
    [finalTotal] inside a region. *)
Theorem compareByRegionThenAmount_strict_order :
  (∀ a, compareByRegionThenAmount a a = false)
  ∧ (∀ a b, compareByRegionThenAmount a b = true →
            compareByRegionThenAmount b a = false)
  ∧ (∀ a b c, compareByRegionThenAmount a b = true →
              compareByRegionThenAmount b c = true →
              compareByRegionThenAmount a c = true).
Proof.
  unfold compareByRegionThenAmount. split_and!.
  - intros a. rewrite String.eqb_refl. apply gt_irrefl.
  - intros a b.
    destruct (String.eqb_spec (region a) (region b)) as [Heq|Hne].
    + rewrite Heq, String.eqb_refl. apply gt_asym.
    + rewrite (proj2 (String.eqb_neq (region b) (region a))) by congruence.
      apply string_gt_asym.
  - intros a b c.
    destruct (String.eqb_spec (region a) (region b)) as [Hab|Hab],
             (String.eqb_spec (region b) (region c)) as [Hbc|Hbc].
    + rewrite Hab, Hbc, String.eqb_refl. apply gt_trans.
    + intros _ H. rewrite Hab.
      by rewrite (proj2 (String.eqb_neq (region b) (region c))).
    + intros H _. rewrite <- Hbc.
      by rewrite (proj2 (String.eqb_neq (region a) (region b))).
    + intros H1 H2. pose proof (string_gt_trans _ _ _ H1 H2) as H3.
      rewrite (proj2 (String.eqb_neq (region a) (region c)));
        [done|]. by apply string_gt_neq.
Qed.

Section GeneratorFacts.
Context {Gen : Type}.
Context (amountDist : Gen → double * Gen) (customerDist : Gen → Z * Gen).
Hypothesis amount_positive : ∀ gen, positive_double (fst (amountDist gen)).

Lemma generate_one_valid (i : nat) (gen : Gen) :
  Traditional.IsValidTransaction (fst (generate_one amountDist customerDist i gen)) =
    planted_valid i
  ∧ id (fst (generate_one amountDist customerDist i gen)) = Z.of_nat i.
Proof.
  unfold generate_one, planted_valid.
  destruct (i mod 50 =? 0) eqn:E50.
  - destruct (i mod 75 =? 0); [done|].
    by destruct (customerDist gen) as [c g].
  - pose proof (amount_positive gen) as Hpos.
    destruct (amountDist gen) as [a g1] eqn:Ea. simpl in Hpos.
    apply gt_zero_positive in Hpos.
    change (of_int 0) with (S754_zero false) in Hpos.
    destruct (i mod 75 =? 0).
    + split; [|done]. unfold Traditional.IsValidTransaction,
        Traditional.hasValidAmount, Traditional.hasValidCustomer. simpl.
      by rewrite Hpos.
    + destruct (customerDist g1) as [c g2]. split; [|done].
      unfold Traditional.IsValidTransaction,
        Traditional.hasValidAmount, Traditional.hasValidCustomer. simpl.
      by rewrite Hpos.
Qed.

Lemma generate_from_spec (k i : nat) (gen : Gen) (raw : list Transaction) :
  ∃ ts, fst (generate_from amountDist customerDist k i gen raw) = raw ++ ts
        ∧ Traditional.IsValidTransaction <$> ts = planted_valid <$> seq i k
        ∧ id <$> ts = Z.of_nat <$> seq i k.
Proof.
  revert i gen raw. induction k as [|k IH]; intros i gen raw; simpl.
  - exists []. by rewrite app_nil_r.
  - destruct (generate_one amountDist customerDist i gen) as [t gen'] eqn:E.
    destruct (IH (S i) gen' (raw ++ [t])) as (ts & Hts & Hvalid & Hid).
    exists (t :: ts). rewrite Hts. split_and!.
    + by rewrite <- app_assoc.
    + pose proof (generate_one_valid i gen) as [Hv _]. rewrite E in Hv.
      simpl in Hv. change (seq i (S k)) with (i :: seq (S i) k).
      by rewrite !fmap_cons, Hv, Hvalid.
    + pose proof (generate_one_valid i gen) as [_ Hi]. rewrite E in Hi.
      simpl in Hi. change (seq i (S k)) with (i :: seq (S i) k).
      by rewrite !fmap_cons, Hi, Hid.
Qed.

Lemma filter_length_fmap {A B} (f : A → bool) (g : B → bool) (l : list A) (k : list B) :
  f <$> l = g <$> k → length (List.filter f l) = length (List.filter g k).
Proof.
  revert k. induction l as [|x l IH]; intros [|y k] Heq; simplify_eq/=; [done|].
  rewrite H. destruct (g y); simpl; auto.
Qed.
End GeneratorFacts.

(** X6.  Whatever the engine draws, as long as the amounts drawn are
    positive: [generateTestData] into an empty pipeline makes [count]
    transactions with ids 0, 1, ..., and the one at index [i] is
    invalid exactly when [i] is a multiple of 50 or of 75. *)
Theorem generated_invalid_at_planted_indices
    {Gen : Type} (amountDist : Gen → double * Gen) (customerDist : Gen → Z * Gen) :
  (∀ gen, positive_double (fst (amountDist gen))) →
  ∀ (count : nat) (gen : Gen) (p : AlgorithmPipeline),
    rawTransactions p = [] →
    let p1 := fst (generateTestData amountDist customerDist count gen p) in
    length (rawTransactions p1) = count
    ∧ ∀ i t, rawTransactions p1 !! i = Some t →
             id t = Z.of_nat i
             ∧ (Traditional.IsValidTransaction t = true ↔
                i mod 50 ≠ 0 ∧ i mod 75 ≠ 0).
Proof.
  intros Hpos count gen [raw valid] Hraw. simpl in Hraw. subst raw.
  unfold generateTestData. simpl.
  destruct (generate_from_spec amountDist customerDist Hpos count 0 gen [])
    as (ts & Hts & Hvalid & Hid).
  destruct (generate_from amountDist customerDist count 0 gen []) as [raw gen'].
  simpl in Hts. subst raw. cbn [fst rawTransactions].
  split.
  - rewrite <- (length_fmap id), Hid, length_fmap. apply length_seq.
  - intros i t Hi.
    assert ((id <$> ts) !! i = Some (id t)) as H1 by (by rewrite list_lookup_fmap, Hi).
    assert ((Traditional.IsValidTransaction <$> ts) !! i =
            Some (Traditional.IsValidTransaction t)) as H2
      by (by rewrite list_lookup_fmap, Hi).
    rewrite Hid in H1. rewrite Hvalid in H2.
    rewrite list_lookup_fmap in H1. rewrite list_lookup_fmap in H2.
    destruct (seq 0 count !! i) as [j|] eqn:Ej; simpl in H1, H2; simplify_eq.
    apply lookup_seq in Ej as [-> _]. change (0 + i) with i in *.
    split; [done|]. rewrite <- H2. unfold planted_valid.
    rewrite andb_true_iff, !negb_true_iff, !Nat.eqb_neq. done.
Qed.

Lemma generated_invalid_at_planted_indices_witness :
  let constant_amount := λ g : unit, (of_int 10, g) in
  let first_customer := λ g : unit, (1%Z, g) in
  let p1 := fst (generateTestData constant_amount first_customer 100 tt
                   (mkAlgorithmPipeline [] [])) in
  length (rawTransactions p1) = 100
  ∧ ∀ i t, rawTransactions p1 !! i = Some t →
           id t = Z.of_nat i
           ∧ (Traditional.IsValidTransaction t = true ↔ i mod 50 ≠ 0 ∧ i mod 75 ≠ 0).
Proof.
  intros constant_amount first_customer.
  apply (generated_invalid_at_planted_indices constant_amount first_customer).
  - intros gen. exact I.
  - reflexivity.
Defined.

Lemma generated_statistics_text
    {Gen : Type} (amountDist : Gen → double * Gen) (customerDist : Gen → Z * Gen) :
  (∀ gen, positive_double (fst (amountDist gen))) →
  ∀ (count : nat) (gen : Gen),
    snd (Traditional.filterValidTransactions
           (fst (generateTestData amountDist customerDist count gen
                   (mkAlgorithmPipeline [] [])))) =
      ("Original transactions: " +:+ pretty count +:+ endl) +:+
      ("Valid transactions: " +:+
         pretty (length (List.filter planted_valid (seq 0 count))) +:+ endl +:+
       "Invalid transactions: " +:+
         pretty (Z.of_nat (length (List.filter (λ i, negb (planted_valid i))
                                     (seq 0 count)))) +:+ endl)
    ∧ snd (Ranges.filterValidTransactions
             (fst (generateTestData amountDist customerDist count gen
                     (mkAlgorithmPipeline [] [])))) =
      snd (Traditional.filterValidTransactions
             (fst (generateTestData amountDist customerDist count gen
                     (mkAlgorithmPipeline [] [])))).
Proof.
  intros Hpos count gen.
  unfold generateTestData. cbn [rawTransactions validTransactions].
  destruct (generate_from_spec amountDist customerDist Hpos count 0 gen [])
    as (ts & Hts & Hvalid & Hid).
  destruct (generate_from amountDist customerDist count 0 gen []) as [raw gen'].
  simpl in Hts. subst raw. cbn [fst].
  assert (length ts = count) as Hlen.
  { rewrite <- (length_fmap id), Hid, length_fmap. apply length_seq. }
  assert (negb ∘ Traditional.IsValidTransaction <$> ts =
          negb ∘ planted_valid <$> seq 0 count) as Hinvalid.
  { by rewrite !list_fmap_compose, Hvalid. }
  unfold Traditional.filterValidTransactions, Ranges.filterValidTransactions,
    statistics, count_if.
  cbn [rawTransactions validTransactions fst snd].
  rewrite to_vector_filter, copy_if_filter, !count_if_from_filter.
  cbn [Ranges.pred Ranges.base app].
  rewrite (filter_ext Ranges.IsValidTransaction Traditional.IsValidTransaction)
    by apply IsValidTransaction_same.
  rewrite (filter_ext (λ t, negb (Ranges.IsValidTransaction t))
             (λ t, negb (Traditional.IsValidTransaction t)))
    by (intros t; by rewrite IsValidTransaction_same).
  rewrite Hlen, !Z.add_0_l.
  rewrite (filter_length_fmap _ planted_valid ts (seq 0 count) Hvalid).
  rewrite (filter_length_fmap (λ t, negb (Traditional.IsValidTransaction t))
             (λ i, negb (planted_valid i)) ts (seq 0 count) Hinvalid).
  split; reflexivity.
Qed.

(** X7.  For the 1000 transactions of [runPipelineTests], the filter
    stage of either file prints 1000 original, 973 valid and 27 invalid
    transactions, whatever the engine draws. *)
Theorem generated_data_statistics
    {Gen : Type} (amountDist : Gen → double * Gen) (customerDist : Gen → Z * Gen) :
  (∀ gen, positive_double (fst (amountDist gen))) →
  ∀ (gen : Gen),
    snd (Traditional.filterValidTransactions
           (fst (generateTestData amountDist customerDist DATASET_SIZE gen
                   (mkAlgorithmPipeline [] [])))) =
      ("Original transactions: 1000" +:+ endl) +:+
      ("Valid transactions: 973" +:+ endl +:+
       "Invalid transactions: 27" +:+ endl)
    ∧ snd (Ranges.filterValidTransactions
             (fst (generateTestData amountDist customerDist DATASET_SIZE gen
                     (mkAlgorithmPipeline [] [])))) =
      ("Original transactions: 1000" +:+ endl) +:+
      ("Valid transactions: 973" +:+ endl +:+
       "Invalid transactions: 27" +:+ endl).
Proof.
  intros Hpos gen.
  destruct (generated_statistics_text amountDist customerDist Hpos DATASET_SIZE gen)
    as [Htrad Hranges].
  rewrite Hranges, Htrad. split; vm_compute; reflexivity.
Qed.

Lemma generated_data_statistics_witness :
  snd (Traditional.filterValidTransactions
         (fst (generateTestData (λ g : unit, (of_int 10, g)) (λ g : unit, (1%Z, g))
                 DATASET_SIZE tt (mkAlgorithmPipeline [] [])))) =
    ("Original transactions: 1000" +:+ endl) +:+
    ("Valid transactions: 973" +:+ endl +:+
     "Invalid transactions: 27" +:+ endl).
Proof.
  refine (proj1 (generated_data_statistics
                   (λ g : unit, (of_int 10, g)) (λ g : unit, (1%Z, g)) _ tt)).
  intros gen. exact I.
Defined.
End PipelineStagesFacts.

(** ** Predicates, chunks and the verification of [stlAlgoPractice_3.cpp] *)

Module CustomIntegrationFacts.
Import IEEE754 IEEE754Ops DoubleOrderFacts CustomAlgorithms CustomIntegration CustomAlgorithmFacts.

Section Chunks.
Context {A B Op Out : Type} (call : Op → A → B * Op) (assign : Out → B → Out).

Lemma chunks_fold (distance : nat) (current : list A) (output : Out) (op : Op) :
  ∀ fuel, length current ≤ fuel →
  chunks call assign distance current output op =
  fold_left (λ d chunk, std_transform call assign chunk d op)
    (chunked_upto fuel (chunk_size_of distance) current) output.
Proof.
  funelim (chunks call assign distance current output op); intros fuel Hfuel.
  - by destruct fuel.
  - destruct fuel as [|fuel]; [simpl in Hfuel; lia|].
    cbn [chunked_upto fold_left].
    match goal with
    | IH : ∀ fuel, _ → _ = _ |- _ => rewrite (IH fuel)
    end.
    + assert (take (chunk_size_of distance `min` length (x :: rest)) (x :: rest) =
              take (chunk_size_of distance) (x :: rest)) as ->.
      { destruct (decide (chunk_size_of distance ≤ length (x :: rest))).
        - by rewrite Nat.min_l.
        - rewrite Nat.min_r by lia. rewrite firstn_all.
          symmetry. apply take_ge. lia. }
      assert (drop (chunk_size_of distance `min` length (x :: rest)) (x :: rest) =
              drop (chunk_size_of distance) (x :: rest)) as ->; [|done].
      destruct (decide (chunk_size_of distance ≤ length (x :: rest))).
      * by rewrite Nat.min_l.
      * rewrite Nat.min_r by lia. rewrite drop_all.
        symmetry. apply drop_ge. lia.
    + rewrite length_drop. unfold chunk_size_of. simpl in *. lia.
Qed.
End Chunks.

Lemma chunked_upto_concat {A} (fuel k : nat) (l : list A) :
  0 < k → length l ≤ fuel → concat (chunked_upto fuel k l) = l.
Proof.
  intros Hk. revert l. induction fuel as [|fuel IH]; intros l Hl.
  - destruct l; [done|simpl in Hl; lia].
  - destruct l as [|x l]; [done|]. cbn [chunked_upto concat].
    rewrite IH; [apply take_drop|].
    rewrite length_drop. simpl in *. lia.
Qed.

Lemma chunked_upto_sizes {A} (fuel k : nat) (l : list A) :
  0 < k → length l ≤ fuel →
  Forall (λ c, 0 < length c ≤ k) (chunked_upto fuel k l)
  ∧ (l ≠ [] → (length (chunked_upto fuel k l) - 1) * k < length l)
  ∧ length l ≤ length (chunked_upto fuel k l) * k.
Proof.
  intros Hk. revert l. induction fuel as [|fuel IH]; intros l Hl.
  - destruct l; [|simpl in Hl; lia]. simpl. split_and!; [constructor|done|lia].
  - destruct l as [|x l]; [simpl; split_and!; [constructor|done|lia]|].
    cbn [chunked_upto].
    destruct (IH (drop k (x :: l))) as (Hall & Hlow & Hhigh).
    { rewrite length_drop. simpl in *. lia. }
    rewrite length_drop in Hlow, Hhigh.
    split_and!.
    + constructor; [|done]. rewrite length_take. simpl. lia.
    + intros _. cbn [length] in *.
      destruct (decide (k < S (length l))) as [Hlt|Hge].
      * assert (drop k (x :: l) ≠ []) as Hne.
        { intros Hnil. apply (f_equal length) in Hnil.
          rewrite length_drop in Hnil. simpl in Hnil. lia. }
        specialize (Hlow Hne). nia.
      * rewrite drop_ge by (simpl; lia). destruct fuel; simpl; lia.
    + cbn [length] in *. nia.
Qed.

(** A functor that counts its calls writes a zero on its first call
    only. *)
Lemma std_transform_counted (A : Type) (piece : list A) (zeros : nat) (n : Z) :
  (0 < n)%Z →
  std_transform counter count_zeros piece zeros n = zeros.
Proof.
  revert zeros n. induction piece as [|x piece IH]; intros zeros n Hn; [done|].
  cbn [std_transform counter]. unfold count_zeros at 2.
  destruct (Z.eqb_spec n 0) as [->|_]; [lia|]. apply IH. lia.
Qed.

Lemma std_transform_fresh_counter (A : Type) (piece : list A) (zeros : nat) :
  piece ≠ [] →
  std_transform counter count_zeros piece zeros 0%Z = S zeros.
Proof.
  destruct piece as [|x piece]; [done|]. intros _.
  cbn [std_transform counter]. unfold count_zeros at 2.
  change (0 =? 0)%Z with true. cbv iota. by apply std_transform_counted.
Qed.

Lemma fold_count_zeros (A : Type) (pieces : list (list A)) :
  Forall (λ piece, 0 < length piece) pieces →
  fold_left (λ d piece, std_transform counter count_zeros piece d 0%Z) pieces 0 =
  length pieces.
Proof.
  intros Hall.
  enough (∀ zeros,
    fold_left (λ d piece, std_transform counter count_zeros piece d 0%Z)
      pieces zeros = zeros + length pieces) as H by apply (H 0).
  induction Hall as [|piece pieces Hpiece _ IH]; intros zeros.
  - simpl. lia.
  - cbn [fold_left length]. rewrite std_transform_fresh_counter.
    + rewrite IH. lia.
    + intros ->. simpl in Hpiece. lia.
Qed.

(** X13.  For a range that can be gone over more than once (forward
    iterators or stronger, like the vector iterators of the calls at
    lines 194-195 and 219-220) and every operation, with or without
    state: [transform_parallel_sim] is [std::transform] applied in turn
    to consecutive pieces of the range, each with a fresh copy of [op];
    the pieces are not empty, have at most [max(1, distance / 4)]
    elements, and concatenate to the range. *)
Theorem transform_parallel_sim_by_chunks
    {A B Op Out : Type} (call : Op → A → B * Op) (assign : Out → B → Out)
    (range : list A) (d_first : Out) (op : Op) :
  let pieces := chunked (chunk_size_of (length range)) range in
  transform_parallel_sim call assign range d_first op =
    fold_left (λ d chunk, std_transform call assign chunk d op) pieces d_first
  ∧ concat pieces = range
  ∧ Forall (λ c, 0 < length c ≤ chunk_size_of (length range)) pieces.
Proof.
  assert (0 < chunk_size_of (length range)) by (unfold chunk_size_of; lia).
  cbv zeta. unfold transform_parallel_sim, chunked. split_and!.
  - by apply chunks_fold.
  - by apply chunked_upto_concat.
  - by apply chunked_upto_sizes.
Qed.

(** X14.  How often the loop of [transform_parallel_sim] calls
    [std::transform], for a range that can be gone over more than once
    (forward iterators or stronger, like the vector iterators of the
    calls at lines 194-195 and 219-220).  The loop makes one call for
    each of [pieces], whatever the operation and the output are; run
    with a functor that counts its own calls, it writes a zero once per
    call, and the zeros written are as many as the pieces.  That number
    is the length of the range below four elements, between four and
    seven from four elements on, and exactly four when the length is a
    positive multiple of four. *)
Theorem chunk_count_bounds {A} (range : list A) :
  let pieces := chunked (chunk_size_of (length range)) range in
  let calls := transform_parallel_sim counter count_zeros range 0 0%Z in
  (∀ (B Op Out : Type) (call : Op → A → B * Op) (assign : Out → B → Out)
     (d_first : Out) (op : Op),
      transform_parallel_sim call assign range d_first op =
      fold_left (λ d piece, std_transform call assign piece d op) pieces d_first)
  ∧ calls = length pieces
  ∧ (length range < 4 → calls = length range)
  ∧ (4 ≤ length range → 4 ≤ calls ≤ 7)
  ∧ (0 < length range → length range mod 4 = 0 → calls = 4).
Proof.
  cbv zeta.
  assert (transform_parallel_sim counter count_zeros range 0 0%Z =
          length (chunked (chunk_size_of (length range)) range)) as Hcalls.
  { unfold transform_parallel_sim, chunked.
    rewrite (chunks_fold _ _ _ _ _ _ (length range)) by done.
    apply fold_count_zeros.
    assert (0 < chunk_size_of (length range)) as Hk by (unfold chunk_size_of; lia).
    destruct (chunked_upto_sizes (length range) _ range Hk (le_n _)) as (Hall & _).
    eapply Forall_impl; [exact Hall|]. simpl. lia. }
  split; [|split; [exact Hcalls|]].
  { intros B Op Out call assign d_first op.
    unfold transform_parallel_sim, chunked. by apply chunks_fold. }
  rewrite Hcalls. clear Hcalls. unfold chunked.
  set (n := length range). set (k := chunk_size_of n).
  assert (0 < k) as Hk by (unfold k, chunk_size_of; lia).
  destruct (chunked_upto_sizes n k range Hk (le_n _)) as (_ & Hlow & Hhigh).
  fold n in Hlow, Hhigh.
  set (c := length (chunked_upto n k range)) in *.
  assert (n ≠ 0 → (c - 1) * k < n) as Hlow'.
  { intros Hn. apply Hlow. intros ->. by apply Hn. }
  assert (n = 0 → c = 0) as Hzero.
  { intros Hn. unfold c. destruct range; [done|]. unfold n in Hn. simpl in Hn. lia. }
  pose proof (Nat.div_mod_eq n 4) as Hdiv.
  pose proof (Nat.mod_upper_bound n 4 ltac:(lia)) as Hmod.
  assert (k = Nat.max 1 (n / 4)) as Hkdef by done.
  clearbody c k n. clear Hlow range.
  split_and!.
  - intros Hn. assert (n / 4 = 0) by (apply Nat.div_small; lia).
    assert (k = 1) by lia. subst k. destruct (decide (n = 0)); [lia|].
    specialize (Hlow' ltac:(done)). lia.
  - intros Hn. specialize (Hlow' ltac:(lia)).
    assert (1 ≤ n / 4) by lia. assert (k = n / 4) by lia.
    destruct (decide (k = 1)).
    + nia.
    + assert (2 ≤ k) by lia. split; nia.
  - intros Hn Hm. specialize (Hlow' ltac:(lia)).
    assert (1 ≤ n / 4) by lia. assert (k = n / 4) by lia. nia.
Qed.

Lemma chunk_count_bounds_witness :
  4 ≤ transform_parallel_sim counter count_zeros (seq 0 11) 0 0%Z ≤ 7.
Proof.
  apply (proj1 (proj2 (proj2 (proj2 (chunk_count_bounds (seq 0 11)))))).
  vm_compute. lia.
Defined.

Lemma std_equal_same (l : list double) :
  std_equal l l = true ↔ ∀ x, x ∈ l → x ≠ S754_nan.
Proof.
  induction l as [|x l IH]; simpl.
  - split; [|done]. intros _ x Hx. by apply elem_of_nil in Hx.
  - destruct (eqb x x) eqn:E.
    + apply eqb_refl_iff in E. rewrite IH. split.
      * intros Hl y Hy. apply elem_of_cons in Hy as [->|Hy]; auto.
      * intros Hl y Hy. apply Hl. by right.
    + split; [done|]. intros Hl.
      assert (eqb x x = true) as E'; [|congruence].
      apply eqb_refl_iff. apply Hl. by left.
Qed.

Lemma std_transform_into_vector {A B} (f : A → B) (range : list A)
    (written rest : list B) :
  length range ≤ length rest →
  std_transform (stateless f) vector_assign range
    (written ++ rest, length written) tt =
  (written ++ (f <$> range) ++ drop (length range) rest,
   length written + length range).
Proof.
  revert written rest. induction range as [|x range IH]; intros written rest Hlen.
  - simpl. rewrite drop_0. by rewrite Nat.add_0_r.
  - destruct rest as [|y rest]; [simpl in Hlen; lia|].
    cbn [std_transform stateless].
    assert (vector_assign (written ++ y :: rest, length written) (f x) =
            ((written ++ [f x]) ++ rest, length (written ++ [f x]))) as ->.
    { unfold vector_assign. cbn [fst snd].
      rewrite insert_app_r_alt by lia. rewrite Nat.sub_diag. cbn [insert list_insert].
      rewrite length_app. simpl. f_equal; [by rewrite <- app_assoc|lia]. }
    rewrite IH by (simpl in Hlen; lia).
    rewrite length_app. simpl. rewrite <- app_assoc. simpl.
    f_equal. lia.
Qed.

Lemma standardResults_map (data : list double) :
  standardResults data = increase <$> data.
Proof.
  unfold standardResults.
  pose proof (std_transform_into_vector increase data []
                (replicate (length data) (of_int 0))) as H.
  cbn [app length] in H. rewrite H by (by rewrite length_replicate).
  cbn [fst app]. rewrite drop_ge by (by rewrite length_replicate).
  by rewrite app_nil_r.
Qed.

Lemma parallelResults_map (data : list double) :
  parallelResults data = increase <$> data.
Proof.
  unfold parallelResults, transform_parallel_sim.
  rewrite (chunks_stateless (stateless increase) vector_assign) by done.
  apply standardResults_map.
Qed.

(** X15.  In [demonstratePerformanceOptimization] the two result
    vectors are always the same, the data times 1.1 element by element;
    the [std::equal] check reports a match exactly when none of these
    products is a NaN. *)
Theorem resultsMatch_iff_no_nan (performanceData : list double) :
  standardResults performanceData = increase <$> performanceData
  ∧ parallelResults performanceData = standardResults performanceData
  ∧ (resultsMatch performanceData = true ↔
     ∀ x, x ∈ performanceData → increase x ≠ S754_nan).
Proof.
  split_and!.
  - apply standardResults_map.
  - by rewrite parallelResults_map, standardResults_map.
  - unfold resultsMatch. rewrite parallelResults_map, standardResults_map.
    rewrite std_equal_same. split.
    + intros H x Hx. apply H. apply list_elem_of_fmap. eauto.
    + intros H y Hy. apply list_elem_of_fmap in Hy as (x & -> & Hx). auto.
Qed.

(** A NaN among the data makes the verification fail although the two
    vectors hold the same values. *)
Example resultsMatch_with_nan :
  resultsMatch [of_int 100; S754_nan; of_int 90] = false
  ∧ parallelResults [of_int 100; S754_nan; of_int 90] =
    standardResults [of_int 100; S754_nan; of_int 90]
  ∧ resultsMatch [of_int 100; of_int 0; of_int 90] = true.
Proof. split_and!; vm_compute; reflexivity. Qed.

Lemma filter_length_le_sum {A} (e g h : A → bool) (l : list A) :
  (∀ x, e x = true → g x = true ∨ h x = true) →
  (∀ x, g x = true → h x = true → False) →
  length (List.filter e l) ≤ length (List.filter g l) + length (List.filter h l)
  ∧ length (List.filter g l) + length (List.filter h l) ≤ length l.
Proof.
  intros Hcover Hdisjoint. induction l as [|x l [IH1 IH2]]; simpl; [lia|].
  pose proof (Hcover x) as Hc. pose proof (Hdisjoint x) as Hd.
  destruct (e x), (g x), (h x); simpl; try lia;
    try (exfalso; by apply Hd); destruct Hc; done.
Qed.

(** X16.  The counts [demonstrateCustomPredicates] prints are nested:
    the extreme performers are at most the high and the low performers
    together, and these two groups, being disjoint, are at most the
    whole data. *)
Theorem predicate_counts_nest (performanceData : list double) :
  ∃ high low extreme : nat,
    demonstrateCustomPredicates performanceData =
      (endl +:+ "=== CUSTOM PREDICATE ALGORITHMS ===" +:+ endl) +:+
      ("High performers (>120): " +:+ pretty high +:+ endl) +:+
      ("Low performers (<80): " +:+ pretty low +:+ endl) +:+
      ("Extreme performers (>130 or <70): " +:+ pretty extreme +:+ endl)
    ∧ extreme ≤ high + low
    ∧ high + low ≤ length performanceData.
Proof.
  eexists _, _, _. split; [reflexivity|].
  unfold find_all. rewrite !PipelineFacts.copy_if_filter. simpl.
  apply filter_length_le_sum.
  - intros x Hx. apply orb_true_iff in Hx as [Hx|Hx].
    + left. unfold ThresholdFilter_call in *. simpl in *.
      eapply gt_trans; [exact Hx|]. vm_compute. reflexivity.
    + right. unfold ThresholdFilter_call in *. simpl in *.
      eapply lt_trans; [exact Hx|]. vm_compute. reflexivity.
  - intros x Hg Hh. unfold ThresholdFilter_call in *. simpl in *.
    pose proof (lt_trans _ _ _ Hg Hh) as Habs. vm_compute in Habs. done.
Qed.







End CustomIntegrationFacts.
